(** * cExprLalr: the regular-expression parser of [lexerParser.cpp]

    A shallow embedding of the cursor ([struct Matching]), of the parse
    tree ([struct RegexParserNode]) and of the recursive-descent rules
    of [src/lexerParser.cpp], followed by the properties of the parser
    that the specification states.

    Conventions of the embedding.
    - A [std::string_view] is the sequence of characters that remain to
      be read: [remove_prefix(1)] drops the first one, and a backup of
      the view is a copy of that sequence.
    - [char] is the signed 8-bit type of the x86-64 ABI; the [begChar]
      and [endChar] fields hold its value as a [Z] in [-128, 127], and
      the conversion from [int] wraps modulo 256.
    - [Matching& matchIn] is threaded through every rule: the rules
      live in a state monad over the view, with two ways of leaving the
      defined behaviour of C++ ([string_view::operator[]] past the end,
      [*] on an empty [std::optional]) recorded as faults.
    - The rules call each other recursively; the embedding counts the
      depth of the calls with a [fuel] argument, and [fuel_for] gives
      a depth that is always enough. *)

From Stdlib Require Import ZArith Lia List Bool Ascii String.
Import ListNotations.

Local Open Scope string_scope.
Local Open Scope Z_scope.

(** ** Characters *)

Definition char := ascii.
Bind Scope char_scope with char.

(** The null sentinel ['\0']. *)
Definition NUL : char := "000"%char.

(** [std::numeric_limits<char>::max()]. *)
Definition CHAR_MAX : Z := 127.
Definition CHAR_MIN : Z := -128.

(** Integral promotion [char -> int] of a signed 8-bit [char]. *)
Definition char_to_int (c : char) : Z :=
  let n := Z.of_N (N_of_ascii c) in
  if n <? 128 then n else n - 256.

(** Conversion [int -> char]: the value modulo 256, in [-128, 127]. *)
Definition int_to_char (z : Z) : Z := (z + 128) mod 256 - 128.

(** [if(const char c=...)]: a [char] is true when it is not ['\0']. *)
Definition char_true (c : char) : bool := negb (Ascii.eqb c NUL).

(** ** The view and its accessors *)

Definition string_view := string.

(** [std::string_view toParse=str] for a C string: the characters
    before the first ['\0']. *)
Fixpoint c_str_view (str : string) : string_view :=
  match str with
  | EmptyString => EmptyString
  | String c rest =>
      if Ascii.eqb c NUL then EmptyString else String c (c_str_view rest)
  end.

(** [filt.find_first_of(c)]: the first position of [c] in [filt];
    [None] stands for [npos]. *)
Fixpoint find_first_of (filt : string_view) (c : char) : option nat :=
  match filt with
  | EmptyString => None
  | String f rest =>
      if Ascii.eqb f c then Some O
      else match find_first_of rest c with
           | Some pos => Some (S pos)
           | None => None
           end
  end.

(** ** Outcomes and the monad of the rules *)

(** The two places where the program can leave defined behaviour. *)
Inductive fault : Type :=
| OutOfRange      (* ref[pos] with pos >= ref.size() *)
| EmptyOptional.  (* *o or o-> on an optional without a value *)

Inductive result (A : Type) : Type :=
| Ok (a : A) (ref : string_view)
| Undefined (f : fault)
| OutOfFuel.

Arguments Ok {A} a ref.
Arguments Undefined {A} f.
Arguments OutOfFuel {A}.

Definition M (A : Type) : Type := string_view -> result A.

Definition ret {A} (a : A) : M A := fun ref => Ok a ref.

Definition bind {A B} (m : M A) (f : A -> M B) : M B :=
  fun ref =>
    match m ref with
    | Ok a ref' => f a ref'
    | Undefined flt => Undefined flt
    | OutOfFuel => OutOfFuel
    end.

(** Copy of the view held by the cursor, and assignment to it. *)
Definition get_ref : M string_view := fun ref => Ok ref ref.
Definition set_ref (backup : string_view) : M unit := fun _ => Ok tt backup.

Definition undefined {A} (f : fault) : M A := fun _ => Undefined f.
Definition out_of_fuel {A} : M A := fun _ => OutOfFuel.

(** [*o] on a [std::optional]. *)
Definition deref {A} (o : option A) : M A :=
  match o with
  | Some a => ret a
  | None => undefined EmptyOptional
  end.

Declare Scope cursor_scope.
Delimit Scope cursor_scope with cursor.

Notation "x <- c1 ;; c2" := (bind c1 (fun x => c2))
  (at level 61, c1 at next level, right associativity) : cursor_scope.
Notation "c1 ;; c2" := (bind c1 (fun _ => c2))
  (at level 61, right associativity) : cursor_scope.

Local Open Scope cursor_scope.

(** ** [struct Matching] *)

(** [matchAnyChar]: the next character, consumed, or ['\0'] at the end. *)
Definition matchAnyChar : M char :=
  fun ref =>
    match ref with
    | String c rest => Ok c rest
    | EmptyString => Ok NUL ref
    end.

(** [matchChar(c)]. *)
Definition matchChar (c : char) : M bool :=
  fun ref =>
    match ref with
    | String c' rest =>
        if Ascii.eqb c' c then Ok true rest else Ok false ref
    | EmptyString => Ok false ref
    end.

(** [matchCharNotIn(filt)]. *)
Definition matchCharNotIn (filt : string_view) : M char :=
  fun ref =>
    match ref with
    | String c rest =>
        match find_first_of filt c with
        | None => Ok c rest
        | Some _ => Ok NUL ref
        end
    | EmptyString => Ok NUL ref
    end.

(** [matchAnyCharIn(filt)]: [pos] is the position of [ref.front()] in
    [filt], and the character returned is [ref[pos]], read from the
    view before its first character is removed. *)
Definition matchAnyCharIn (filt : string_view) : M char :=
  fun ref =>
    match ref with
    | String front rest =>
        match find_first_of filt front with
        | Some pos =>
            match String.get pos ref with
            | Some c => Ok c rest
            | None => Undefined OutOfRange
            end
        | None => Ok NUL ref
        end
    | EmptyString => Ok NUL ref
    end.

(** ** [struct RegexParserNode] *)

Inductive Type_ : Type := OR | AND | OPT | MANY | NONZERO | CHAR.

#[local] Set Warnings "-register-all".

Inductive RegexParserNode : Type :=
| Node (type : Type_) (subNodes : list RegexParserNode)
       (begChar endChar : Z).

Definition type (n : RegexParserNode) : Type_ :=
  let (t, _, _, _) := n in t.
Definition subNodes (n : RegexParserNode) : list RegexParserNode :=
  let (_, s, _, _) := n in s.
Definition begChar (n : RegexParserNode) : Z :=
  let (_, _, b, _) := n in b.
Definition endChar (n : RegexParserNode) : Z :=
  let (_, _, _, e) := n in e.

(** The [typeSpecs] table. *)
Record TypeSpecs : Type :=
  { tag : string; nSubNodes : nat; symbol : char }.

Definition typeSpecs (t : Type_) : TypeSpecs :=
  match t with
  | OR => {| tag := "OR"; nSubNodes := 2; symbol := "|" |}
  | AND => {| tag := "AND"; nSubNodes := 2; symbol := "&" |}
  | OPT => {| tag := "OPT"; nSubNodes := 1; symbol := "?" |}
  | MANY => {| tag := "MANY"; nSubNodes := 1; symbol := "?" |}
  | NONZERO => {| tag := "NONZERO"; nSubNodes := 1; symbol := "+" |}
  | CHAR => {| tag := "CHAR"; nSubNodes := 0; symbol := "#" |}
  end.

(** The constructor: [begChar] and [endChar] arrive as [int] and are
    stored as [char]. *)
Definition mkNode (t : Type_) (subs : list RegexParserNode)
  (b e : Z) : RegexParserNode :=
  Node t subs (int_to_char b) (int_to_char e).

(** A CHAR node matches the characters from [begChar] to the one before
    [endChar] ("past last char matched by the node"). *)
Definition in_range (n : RegexParserNode) (c : Z) : bool :=
  (begChar n <=? c) && (c <? endChar n).

(** ** The grammar rules *)

Definition parsed := option RegexParserNode.

(** [matchDot]. *)
Definition matchDot : M parsed :=
  dot <- matchChar "." ;;
  if dot then ret (Some (mkNode CHAR [] 0 CHAR_MAX)) else ret None.

(** [maybeEscape]. *)
Definition maybeEscape (c : char) : char :=
  if Ascii.eqb c "b" then "008"%char
  else if Ascii.eqb c "n" then "010"%char
  else if Ascii.eqb c "f" then "012"%char
  else if Ascii.eqb c "r" then "013"%char
  else if Ascii.eqb c "t" then "009"%char
  else c.

(** [matchPossiblyEscapedChar]. *)
Definition matchPossiblyEscapedChar : M parsed :=
  c <- matchCharNotIn "|*+?()" ;;
  if char_true c then
    d <- (if Ascii.eqb c "\"
          then (e <- matchAnyChar ;; ret (maybeEscape e))
          else ret c) ;;
    if char_true d
    then ret (Some (mkNode CHAR [] (char_to_int d) (char_to_int d + 1)))
    else ret None
  else ret None.

(** The type chosen from the postfix character [c], an [int]. *)
Definition postfix_type (c : Z) : Type_ :=
  if c =? char_to_int "+" then NONZERO
  else if c =? char_to_int "?" then OPT
  else MANY.

(** [matchSubExpr], [matchAndAddExprWithPossiblePostfix],
    [matchAndAddPossiblyAndedExpr] and [matchAndAddPossiblyOrredExpr];
    every call of one rule by another takes one unit of [fuel]. *)
Fixpoint matchSubExpr (fuel : nat) : M parsed :=
  match fuel with
  | O => out_of_fuel
  | S fuel' =>
      backup <- get_ref ;;
      opened <- matchChar "(" ;;
      if opened then
        s <- matchAndAddPossiblyOrredExpr fuel' ;;
        match s with
        | Some _ =>
            closed <- matchChar ")" ;;
            if closed then ret s else (set_ref backup ;; ret None)
        | None => set_ref backup ;; ret None
        end
      else set_ref backup ;; ret None
  end

with matchAndAddExprWithPossiblePostfix (fuel : nat) : M parsed :=
  match fuel with
  | O => out_of_fuel
  | S fuel' =>
      m <- (m1 <- matchSubExpr fuel' ;;
            match m1 with
            | Some _ => ret m1
            | None =>
                m2 <- matchDot ;;
                match m2 with
                | Some _ => ret m2
                | None => matchPossiblyEscapedChar
                end
            end) ;;
      match m with
      | Some atom =>
          c <- matchAnyCharIn "+?*" ;;
          if char_true c
          then ret (Some (mkNode (postfix_type (char_to_int c)) [atom] 0 0))
          else ret m
      | None => ret m
      end
  end

with matchAndAddPossiblyAndedExpr (fuel : nat) : M parsed :=
  match fuel with
  | O => out_of_fuel
  | S fuel' =>
      lhs <- matchAndAddExprWithPossiblePostfix fuel' ;;
      match lhs with
      | Some l =>
          rhs <- matchAndAddPossiblyAndedExpr fuel' ;;
          match rhs with
          | Some r => ret (Some (mkNode AND [l; r] 0 0))
          | None => ret lhs
          end
      | None => ret lhs
      end
  end

with matchAndAddPossiblyOrredExpr (fuel : nat) : M parsed :=
  match fuel with
  | O => out_of_fuel
  | S fuel' =>
      lhs <- matchAndAddPossiblyAndedExpr fuel' ;;
      backup <- get_ref ;;
      bar <- matchChar "|" ;;
      if bar then
        rhs <- matchAndAddPossiblyAndedExpr fuel' ;;
        match rhs with
        | Some r =>
            l <- deref lhs ;;
            ret (Some (mkNode OR [l; r] 0 0))
        | None => set_ref backup ;; ret lhs
        end
      else set_ref backup ;; ret lhs
  end.

(** A call depth that no input of this length exceeds (see
    [fuel_for_enough] below). *)
Definition fuel_for (ref : string_view) : nat :=
  (4 * String.length ref + 4)%nat.

(** The rules run on a view with enough fuel. *)
Definition parseSubExpr (ref : string_view) : result parsed :=
  matchSubExpr (fuel_for ref) ref.
Definition parsePostfix (ref : string_view) : result parsed :=
  matchAndAddExprWithPossiblePostfix (fuel_for ref) ref.
Definition parseAnded (ref : string_view) : result parsed :=
  matchAndAddPossiblyAndedExpr (fuel_for ref) ref.
Definition parseOrred (ref : string_view) : result parsed :=
  matchAndAddPossiblyOrredExpr (fuel_for ref) ref.

(** The top-level parse of [test]: the view of the C string [str],
    given to [matchAndAddPossiblyOrredExpr]. *)
Definition parse (str : string) : result parsed :=
  parseOrred (c_str_view str).

(** ** The driver *)

(** [%c] of a [char] value. *)
Definition print_char (c : Z) : string :=
  String (ascii_of_N (Z.to_N (c mod 256))) EmptyString.

(** [indLv] spaces. *)
Fixpoint indent (indLv : nat) : string :=
  match indLv with
  | O => EmptyString
  | S n => String " " (indent n)
  end.

(** [RegexParserNode::printf]: the lines written to the standard
    output, the node first and then its subnodes one level deeper. *)
Fixpoint printf (indLv : nat) (n : RegexParserNode) : list string :=
  let (t, subs, b, e) := n in
  (indent indLv ++ " " ++ tag (typeSpecs t) ++ " " ++
     match t with
     | CHAR => print_char b ++ " " ++ print_char e
     | _ => EmptyString
     end)%string
  :: flat_map (printf (S indLv)) subs.

(** [test]: [constant_evaluated] is the value of
    [std::is_constant_evaluated()]; [t->printf()] reads the value of
    the optional [t]. The result is the [bool] returned and the lines
    printed. *)
Definition test (constant_evaluated : bool) (str : string)
  : result (bool * list string) :=
  let toParse := c_str_view str in
  (t <- matchAndAddPossiblyOrredExpr (fuel_for toParse) ;;
   out <- (if negb constant_evaluated
           then (node <- deref t ;; ret (printf 0 node))
           else ret []) ;;
   ret (true, out)) toParse.

(** ** Notions used in the statements *)

(** Number of characters read so far from [input] when the view is
    [ref]. *)
Definition position (input ref : string_view) : nat :=
  (String.length input - String.length ref)%nat.

(** The first statement of [matchAndAddExprWithPossiblePostfix]: the
    atom, tried as a group, as a dot and as a character. *)
Definition matchAtom (fuel : nat) : M parsed :=
  m1 <- matchSubExpr fuel ;;
  match m1 with
  | Some _ => ret m1
  | None =>
      m2 <- matchDot ;;
      match m2 with
      | Some _ => ret m2
      | None => matchPossiblyEscapedChar
      end
  end.

(** Its second statement: the postfix character and the wrapping. *)
Definition wrapPostfix (m : parsed) : M parsed :=
  match m with
  | Some atom =>
      c <- matchAnyCharIn "+?*" ;;
      if char_true c
      then ret (Some (mkNode (postfix_type (char_to_int c)) [atom] 0 0))
      else ret m
  | None => ret m
  end.

(** A rule [shrinks] when it never lengthens the view and a node costs
    at least one character. *)
Definition shrinks (m : M parsed) : Prop :=
  forall ref r rest,
    m ref = Ok r rest ->
    (String.length rest <= String.length ref)%nat /\
    (r <> None -> (String.length rest < String.length ref)%nat).

(** [m'] [extends] [m] when it agrees with every outcome of [m] other
    than [OutOfFuel]. *)
Definition extends (m m' : M parsed) : Prop :=
  forall ref res, m ref = res -> res <> OutOfFuel -> m' ref = res.

(** A rule [needs] [k] units of fuel more than four times the length
    of the view. *)
Definition needs (k : nat) (rule : nat -> M parsed) (fuel : nat) : Prop :=
  forall ref,
    (4 * String.length ref + k <= fuel)%nat -> rule fuel ref <> OutOfFuel.

(** The views on which a failing rule can leave the cursor moved: a
    backslash at the very end, or a ['\0'] inside the view (which the
    view of a C string never holds). *)
Definition lone_escape (ref rest : string_view) : Prop :=
  (ref = "\" /\ rest = "") \/
  ref = String NUL rest \/
  ref = String "\" (String NUL rest).

(** A rule [restores] when its failure leaves the view as it was, or
    [ref] is one of the views above. *)
Definition restores (m : M parsed) : Prop :=
  forall ref rest,
    m ref = Ok None rest -> rest = ref \/ lone_escape ref rest.

(** ** Notions used for the independence from what follows *)

(** Whether reading [s] from left to right, a backslash taking the
    character after it, ends on a backslash with nothing after it. *)
Fixpoint dangling (s : string_view) : bool :=
  match s with
  | EmptyString => false
  | String c r =>
      if Ascii.eqb c "\" then
        match r with
        | EmptyString => true
        | String _ r' => dangling r'
        end
      else dangling r
  end.

(** The views that start with ['|'] or [')'], with [')'], and with
    ['(']. *)
Definition closer (y : string_view) : bool :=
  match y with
  | String c _ => Ascii.eqb c "|" || Ascii.eqb c ")"
  | EmptyString => false
  end.

Definition closing (y : string_view) : bool :=
  match y with
  | String c _ => Ascii.eqb c ")"
  | EmptyString => false
  end.

Definition opens (y : string_view) : bool :=
  match y with
  | String c _ => Ascii.eqb c "("
  | EmptyString => false
  end.

(** The atom when it is not a group: the dot, then the character. *)
Definition matchCharAtom : M parsed :=
  m2 <- matchDot ;;
  match m2 with
  | Some _ => ret m2
  | None => matchPossiblyEscapedChar
  end.

(** A rule is [aligned] when it stops between two escapes. *)
Definition aligned (m : M parsed) : Prop :=
  forall ref r rest,
    m ref = Ok r rest -> dangling ref = false -> dangling rest = false.

(** The outcome on [s] carries over to [s] followed by [x], with [x]
    added to what is left. For a group this holds of every node. *)
Definition frame_success (m : M parsed) : Prop :=
  forall s t rest x,
    m s = Ok (Some t) rest -> dangling s = false ->
    m (s ++ x) = Ok (Some t) (rest ++ x).

(** For the postfix rule it holds when the input then goes on with a
    closer, or a node is returned and something of [s] is left. *)
Definition frame_postfix (m : M parsed) : Prop :=
  forall s r rest x,
    m s = Ok r rest -> dangling s = false ->
    (r = None \/ rest = "" -> closer (rest ++ x) = true) ->
    m (s ++ x) = Ok r (rest ++ x).

(** For the sequence rule it holds when the input goes on with a
    closer. *)
Definition frame_closer (m : M parsed) : Prop :=
  forall s r rest x,
    m s = Ok r rest -> dangling s = false ->
    closer (rest ++ x) = true ->
    m (s ++ x) = Ok r (rest ++ x).

(** For the alternation rule it holds when the input goes on with
    [')']. *)
Definition frame_closing (m : M parsed) : Prop :=
  forall s r rest x,
    m s = Ok r rest -> dangling s = false ->
    closing (rest ++ x) = true ->
    m (s ++ x) = Ok r (rest ++ x).

(** ** Notions used for the further properties *)

(** The four rules under one name. *)
Inductive rule : Type := SubExpr | Postfix | Sequence | Alternation.

Definition run (k : rule) (fuel : nat) : M parsed :=
  match k with
  | SubExpr => matchSubExpr fuel
  | Postfix => matchAndAddExprWithPossiblePostfix fuel
  | Sequence => matchAndAddPossiblyAndedExpr fuel
  | Alternation => matchAndAddPossiblyOrredExpr fuel
  end.

(** [rest] is what is left of [ref] after some characters. *)
Definition suffix_of (rest ref : string_view) : Prop :=
  exists pre, ref = pre ++ rest.

(** No character of [s] is one of [cs]. *)
Fixpoint lacks (cs : string) (s : string_view) : bool :=
  match s with
  | EmptyString => true
  | String c r =>
      match find_first_of cs c with
      | None => lacks cs r
      | Some _ => false
      end
  end.

(** The number of nodes of a tree. *)
Fixpoint node_count (n : RegexParserNode) : nat :=
  let (_, subs, _, _) := n in
  S (list_sum (map node_count subs)).

(** A tree in which every node has the number of subnodes that
    [typeSpecs] gives for its type, a CHAR node holds two [char]
    values, and the other nodes hold the default 0 in both fields. *)
Fixpoint well_formed (n : RegexParserNode) : bool :=
  let (t, subs, b, e) := n in
  Nat.eqb (List.length subs) (nSubNodes (typeSpecs t)) &&
  forallb well_formed subs &&
  match t with
  | CHAR =>
      (CHAR_MIN <=? b) && (b <=? CHAR_MAX) &&
      (CHAR_MIN <=? e) && (e <=? CHAR_MAX)
  | _ => (b =? 0) && (e =? 0)
  end.

(** The node of the character [c], as [matchPossiblyEscapedChar]
    builds it. *)
Definition literal (c : char) : RegexParserNode :=
  mkNode CHAR [] (char_to_int c) (char_to_int c + 1).

(** A character that stands for itself: not ['\0'], not an operator,
    not the dot, not the backslash. *)
Definition plain (c : char) : bool :=
  char_true c &&
  match find_first_of "|*+?()\." c with
  | None => true
  | Some _ => false
  end.

(** The sequence of the characters [c], [cs], nested to the right. *)
Fixpoint chain (c : char) (cs : list char) : RegexParserNode :=
  match cs with
  | [] => literal c
  | c' :: cs' => mkNode AND [literal c; chain c' cs'] 0 0
  end.

(** The views on which no atom starts: the empty one, and those that
    start with an operator other than ['(']. *)
Definition starts_reserved (ref : string_view) : bool :=
  match ref with
  | EmptyString => true
  | String c _ =>
      match find_first_of "|*+?)" c with
      | Some _ => true
      | None => false
      end
  end.


(** * Properties *)

(** ** Proof support *)

(** The rules are unfolded one call deep and their outcome is followed
    through the monad by case analysis on each scrutinee met. *)
Ltac inv H := inversion H; subst; clear H.

(** Case analysis on the first scrutinee found in [H]. *)
Ltac break_match_in H :=
  match type of H with
  | context [match ?x with _ => _ end] =>
      destruct x eqn:?; try discriminate H
  end.

(** The operations of the monad, unfolded in [H]. *)
Ltac unfold_monad_in H :=
  unfold deref in H;
  unfold bind, ret, get_ref, set_ref, undefined, out_of_fuel in H.

Ltac run_in H := unfold_monad_in H; repeat break_match_in H.

(** The same on every equation of the context. *)
Ltac break_match_eqs :=
  repeat match goal with
    | H : ?lhs = _ |- _ =>
        match lhs with
        | context [match ?x with _ => _ end] =>
            destruct x eqn:?; try discriminate H
        end
    end.

(** Equal outcomes have equal parts. *)
Ltac inv_oks :=
  repeat match goal with
    | H : Ok _ _ = Ok _ _ |- _ => inv H
    | H : Some _ = Some _ |- _ => inv H
    end.

(** ** The cursor

    What the operations of [Matching] do to the view. *)

Lemma matchChar_Ok c ref b rest :
  matchChar c ref = Ok b rest ->
  (b = true /\ ref = String c rest) \/ (b = false /\ rest = ref).
Proof.
  unfold matchChar. destruct ref as [|c' r]; intros H.
  - inv H. auto.
  - destruct (Ascii.eqb_spec c' c); inv H; auto.
Qed.

Lemma matchChar_defined c ref : exists b rest, matchChar c ref = Ok b rest.
Proof.
  unfold matchChar. destruct ref as [|c' r]; [eauto|].
  destruct (Ascii.eqb c' c); eauto.
Qed.

Lemma matchAnyCharIn_Ok filt ref c rest :
  matchAnyCharIn filt ref = Ok c rest ->
  rest = ref \/ exists front, ref = String front rest.
Proof.
  unfold matchAnyCharIn. intros H. run_in H; inv H; eauto.
Qed.

(** ** Consumption

    No rule lengthens the view, and a rule that returns a node has
    consumed at least one character: this is what bounds the depth of
    the calls. *)

Ltac specialize_nonempty :=
  repeat match goal with
    | E : ?a <> None -> _ |- _ =>
        let E' := fresh in
        assert (E' : a <> None) by congruence; specialize (E E')
    end.

Ltac close_shrink :=
  split; [cbn in *; lia
         | intro; specialize_nonempty; cbn in *; first [congruence | lia]].

Lemma matchDot_shrinks : shrinks matchDot.
Proof.
  intros ref r rest H. unfold matchDot in H. run_in H; inv H;
    match goal with
    | E : matchChar _ _ = Ok _ _ |- _ =>
        apply matchChar_Ok in E as [[? ?]|[? ?]]; try discriminate; subst
    end; close_shrink.
Qed.

Lemma matchPossiblyEscapedChar_shrinks : shrinks matchPossiblyEscapedChar.
Proof.
  intros ref r rest H.
  unfold matchPossiblyEscapedChar, matchCharNotIn, matchAnyChar in H.
  unfold_monad_in H. break_match_eqs; inv_oks; close_shrink.
Qed.

Ltac use_shrinks :=
  repeat match goal with
    | E : matchChar _ _ = Ok _ _ |- _ =>
        apply matchChar_Ok in E as [[? ?]|[? ?]]; try discriminate; subst
    | E : matchAnyCharIn _ _ = Ok _ _ |- _ =>
        apply matchAnyCharIn_Ok in E as [?|[? ?]]; subst
    | S : shrinks ?m, E : ?m _ = Ok _ _ |- _ => apply S in E as [? ?]
    | E : matchDot _ = Ok _ _ |- _ => apply matchDot_shrinks in E as [? ?]
    | E : matchPossiblyEscapedChar _ = Ok _ _ |- _ =>
        apply matchPossiblyEscapedChar_shrinks in E as [? ?]
    | E : ?a <> None -> _ |- _ =>
        let E' := fresh in
        assert (E' : a <> None) by congruence; specialize (E E')
    end.

Lemma rules_shrink fuel :
  shrinks (matchSubExpr fuel) /\
  shrinks (matchAndAddExprWithPossiblePostfix fuel) /\
  shrinks (matchAndAddPossiblyAndedExpr fuel) /\
  shrinks (matchAndAddPossiblyOrredExpr fuel).
Proof.
  induction fuel as [|fuel (IHs & IHp & IHa & IHo)].
  - repeat apply conj; intros ref r rest H; discriminate H.
  - repeat apply conj; intros ref r rest H;
      cbn [matchSubExpr matchAndAddExprWithPossiblePostfix
           matchAndAddPossiblyAndedExpr matchAndAddPossiblyOrredExpr] in H;
      unfold_monad_in H; break_match_eqs; inv_oks; use_shrinks; close_shrink.
Qed.

(** ** Fuel

    One more unit of fuel keeps every outcome other than [OutOfFuel]
    ([fuel_step], [fuel_le]), and four units for each character and
    four more are enough for every view ([fuel_enough]): the rules run
    with [fuel_for] always return or leave defined behaviour. *)

Ltac unfold_rules :=
  cbn [matchSubExpr matchAndAddExprWithPossiblePostfix
       matchAndAddPossiblyAndedExpr matchAndAddPossiblyOrredExpr].

Ltac unfold_rules_in H :=
  cbn [matchSubExpr matchAndAddExprWithPossiblePostfix
       matchAndAddPossiblyAndedExpr matchAndAddPossiblyOrredExpr] in H.

Lemma fuel_step fuel :
  extends (matchSubExpr fuel) (matchSubExpr (S fuel)) /\
  extends (matchAndAddExprWithPossiblePostfix fuel)
    (matchAndAddExprWithPossiblePostfix (S fuel)) /\
  extends (matchAndAddPossiblyAndedExpr fuel)
    (matchAndAddPossiblyAndedExpr (S fuel)) /\
  extends (matchAndAddPossiblyOrredExpr fuel)
    (matchAndAddPossiblyOrredExpr (S fuel)).
Proof.
  induction fuel as [|fuel (IHs & IHp & IHa & IHo)].
  - repeat apply conj; intros ref res H Hres;
      cbn in H; unfold out_of_fuel in H; congruence.
  - remember (S fuel) as fuel1 eqn:Hfuel1.
    repeat apply conj; intros ref res H Hres; rewrite Hfuel1 in H;
      clear Hfuel1; unfold_rules_in H; unfold_rules;
      unfold deref in *;
      unfold bind, ret, get_ref, set_ref, undefined, out_of_fuel in *;
      break_match_eqs;
      repeat match goal with
        | S : extends ?m _, E : ?m ?x = ?v |- _ =>
            let E' := fresh in
            assert (E' := S x v E ltac:(discriminate)); clear E; rewrite E'
        | E : Ok _ _ = Ok _ _ |- _ => inv E
        | E : ?lhs = _ |- context [?lhs] => rewrite E
        end;
      first [congruence | subst res; contradiction].
Qed.

Lemma fuel_le fuel fuel' :
  (fuel <= fuel')%nat ->
  extends (matchSubExpr fuel) (matchSubExpr fuel') /\
  extends (matchAndAddExprWithPossiblePostfix fuel)
    (matchAndAddExprWithPossiblePostfix fuel') /\
  extends (matchAndAddPossiblyAndedExpr fuel)
    (matchAndAddPossiblyAndedExpr fuel') /\
  extends (matchAndAddPossiblyOrredExpr fuel)
    (matchAndAddPossiblyOrredExpr fuel').
Proof.
  induction 1 as [|fuel' _ (IHs & IHp & IHa & IHo)].
  - repeat apply conj; intros ref res H _; exact H.
  - destruct (fuel_step fuel') as (Ss & Sp & Sa & So).
    repeat apply conj; intros ref res H Hres; auto.
Qed.

(** The fuel each rule needs on a view. *)
Lemma fuel_enough fuel :
  needs 1 matchSubExpr fuel /\
  needs 2 matchAndAddExprWithPossiblePostfix fuel /\
  needs 3 matchAndAddPossiblyAndedExpr fuel /\
  needs 4 matchAndAddPossiblyOrredExpr fuel.
Proof.
  induction fuel as [|fuel (IHs & IHp & IHa & IHo)].
  - repeat apply conj; intros ref Hle; lia.
  - destruct (rules_shrink fuel) as (Ss & Sp & Sa & So).
    repeat apply conj; intros ref Hle H;
      unfold_rules_in H;
      unfold matchDot, matchPossiblyEscapedChar, matchAnyCharIn,
        matchCharNotIn, matchAnyChar, matchChar in H;
      unfold deref in H;
      unfold bind, ret, get_ref, set_ref, undefined, out_of_fuel in H;
      break_match_eqs; inv_oks;
      repeat match goal with
        | S : shrinks ?m, E : ?m _ = Ok _ _ |- _ => apply S in E as [? ?]
        end;
      specialize_nonempty;
      match goal with
      | N : needs _ ?rule fuel, E : ?rule fuel _ = OutOfFuel |- _ =>
          revert E; apply N; cbn [String.length] in *; lia
      end.
Qed.

Lemma length_append (s x : string) :
  String.length (s ++ x) = (String.length s + String.length x)%nat.
Proof. induction s as [|c s IH]; cbn; [reflexivity|now rewrite IH]. Qed.

(** With [fuel_for], and with any larger amount, the rules return the
    same outcome, which is never [OutOfFuel]. *)
Lemma fuel_for_enough ref :
  parseSubExpr ref <> OutOfFuel /\
  parsePostfix ref <> OutOfFuel /\
  parseAnded ref <> OutOfFuel /\
  parseOrred ref <> OutOfFuel.
Proof.
  destruct (fuel_enough (fuel_for ref)) as (Ns & Np & Na & No).
  unfold parseSubExpr, parsePostfix, parseAnded, parseOrred.
  repeat apply conj; [apply Ns|apply Np|apply Na|apply No];
    unfold fuel_for; lia.
Qed.

Lemma fuel_for_stable ref fuel :
  (fuel_for ref <= fuel)%nat ->
  matchSubExpr fuel ref = parseSubExpr ref /\
  matchAndAddExprWithPossiblePostfix fuel ref = parsePostfix ref /\
  matchAndAddPossiblyAndedExpr fuel ref = parseAnded ref /\
  matchAndAddPossiblyOrredExpr fuel ref = parseOrred ref.
Proof.
  intros Hle.
  destruct (fuel_le _ _ Hle) as (Es & Ep & Ea & Eo).
  destruct (fuel_for_enough ref) as (Ns & Np & Na & No).
  repeat apply conj; [apply Es|apply Ep|apply Ea|apply Eo]; auto.
Qed.


(** ** Failure and the position of the cursor *)

(** The dot and the group leave the view as it was when they fail. *)
Lemma matchDot_restores ref rest :
  matchDot ref = Ok None rest -> rest = ref.
Proof.
  unfold matchDot. intros H. unfold_monad_in H. break_match_eqs; inv_oks.
  match goal with
  | E : matchChar _ _ = Ok _ _ |- _ =>
      apply matchChar_Ok in E as [[? _]|[_ ?]]; congruence
  end.
Qed.

Lemma matchSubExpr_restores fuel ref rest :
  matchSubExpr fuel ref = Ok None rest -> rest = ref.
Proof.
  destruct fuel as [|fuel]; [discriminate|].
  intros H. unfold_rules_in H. unfold_monad_in H.
  break_match_eqs; inv_oks; reflexivity.
Qed.

Lemma maybeEscape_NUL c : maybeEscape c = NUL -> c = NUL.
Proof.
  unfold maybeEscape. intros H. break_match_eqs; congruence.
Qed.

(** The character rule does so too, except on a lone escape. *)
Lemma matchPossiblyEscapedChar_restores : restores matchPossiblyEscapedChar.
Proof.
  intros ref rest H.
  unfold matchPossiblyEscapedChar, matchCharNotIn, matchAnyChar in H.
  unfold_monad_in H. unfold lone_escape.
  break_match_eqs; inv_oks; auto;
    repeat match goal with
      | E : char_true _ = false |- _ =>
          apply negb_false_iff, Ascii.eqb_eq in E; subst
      | E : Ascii.eqb _ _ = true |- _ => apply Ascii.eqb_eq in E; subst
      | E : maybeEscape _ = NUL |- _ => apply maybeEscape_NUL in E; subst
      end; auto; try discriminate.
Qed.

(** Every rule restores the cursor when it fails, except that the
    character rule, and with it the postfix, sequence and alternation
    rules that end on it, keeps a lone escape consumed. *)
Lemma rules_restore fuel :
  restores (matchAndAddExprWithPossiblePostfix fuel) /\
  restores (matchAndAddPossiblyAndedExpr fuel) /\
  restores (matchAndAddPossiblyOrredExpr fuel).
Proof.
  assert (Hp : forall fuel, restores (matchAndAddExprWithPossiblePostfix fuel)).
  { intros [|f] ref rest H; [discriminate|].
    unfold_rules_in H. unfold_monad_in H. break_match_eqs; inv_oks.
    repeat match goal with
      | E : matchSubExpr _ _ = Ok None _ |- _ =>
          apply matchSubExpr_restores in E; subst
      | E : matchDot _ = Ok None _ |- _ =>
          apply matchDot_restores in E; subst
      end.
    now apply matchPossiblyEscapedChar_restores. }
  assert (Ha : forall fuel, restores (matchAndAddPossiblyAndedExpr fuel)).
  { intros [|f] ref rest H; [discriminate|].
    unfold_rules_in H. unfold_monad_in H. break_match_eqs; inv_oks.
    now apply (Hp f). }
  repeat apply conj; auto.
  destruct fuel as [|f]; intros ref rest H; [discriminate|].
  unfold_rules_in H. unfold_monad_in H. break_match_eqs; inv_oks;
    now apply (Ha f).
Qed.

(** ** The postfix rule *)

(** The rule is its two statements in sequence. *)
Lemma postfix_unfold fuel :
  matchAndAddExprWithPossiblePostfix (S fuel) =
  (m <- matchAtom fuel ;; wrapPostfix m).
Proof. reflexivity. Qed.

(** Without a postfix character the atom is returned as it is. *)
Lemma postfix_absent fuel ref atom rest :
  matchAtom fuel ref = Ok (Some atom) rest ->
  (forall c r, rest = String c r -> find_first_of "+?*" c = None) ->
  matchAndAddExprWithPossiblePostfix (S fuel) ref = Ok (Some atom) rest.
Proof.
  intros Hatom Hnone. rewrite postfix_unfold. unfold bind. rewrite Hatom.
  unfold wrapPostfix, bind, matchAnyCharIn.
  destruct rest as [|c r]; [reflexivity|].
  now rewrite (Hnone c r eq_refl).
Qed.

(** A ['+'] after the atom wraps it in a NONZERO node. *)
Lemma postfix_plus fuel ref atom rest :
  matchAtom fuel ref = Ok (Some atom) (String "+" rest) ->
  matchAndAddExprWithPossiblePostfix (S fuel) ref =
  Ok (Some (Node NONZERO [atom] 0 0)) rest.
Proof.
  intros Hatom. rewrite postfix_unfold. unfold bind. now rewrite Hatom.
Qed.

(** After a ['?'] the node is chosen from the character that follows
    the ['?'], and after a ['*'] from the second character after it. *)
Lemma postfix_question fuel ref atom c rest :
  matchAtom fuel ref = Ok (Some atom) (String "?" (String c rest)) ->
  matchAndAddExprWithPossiblePostfix (S fuel) ref =
  if char_true c
  then Ok (Some (mkNode (postfix_type (char_to_int c)) [atom] 0 0))
         (String c rest)
  else Ok (Some atom) (String c rest).
Proof.
  intros Hatom. rewrite postfix_unfold. unfold bind. rewrite Hatom.
  cbn. now destruct (char_true c).
Qed.

Lemma postfix_star fuel ref atom c1 c2 rest :
  matchAtom fuel ref =
    Ok (Some atom) (String "*" (String c1 (String c2 rest))) ->
  matchAndAddExprWithPossiblePostfix (S fuel) ref =
  if char_true c2
  then Ok (Some (mkNode (postfix_type (char_to_int c2)) [atom] 0 0))
         (String c1 (String c2 rest))
  else Ok (Some atom) (String c1 (String c2 rest)).
Proof.
  intros Hatom. rewrite postfix_unfold. unfold bind. rewrite Hatom.
  cbn. now destruct (char_true c2).
Qed.

(** ** The alternation rule *)

(** Both operands parsed at the cursor: an OR node over the two. *)
Lemma orred_both fuel ref l mid r rest :
  matchAndAddPossiblyAndedExpr fuel ref = Ok (Some l) (String "|" mid) ->
  matchAndAddPossiblyAndedExpr fuel mid = Ok (Some r) rest ->
  matchAndAddPossiblyOrredExpr (S fuel) ref =
  Ok (Some (Node OR [l; r] 0 0)) rest.
Proof.
  intros Hl Hr. unfold_rules. unfold bind, get_ref. rewrite Hl.
  cbn. now rewrite Hr.
Qed.

(** The right operand fails after the ['|']: the view goes back to the
    ['|'] and the left operand is returned alone. *)
Lemma orred_right_fails fuel ref lhs mid rest :
  matchAndAddPossiblyAndedExpr fuel ref = Ok lhs (String "|" mid) ->
  matchAndAddPossiblyAndedExpr fuel mid = Ok None rest ->
  matchAndAddPossiblyOrredExpr (S fuel) ref = Ok lhs (String "|" mid).
Proof.
  intros Hl Hr. unfold_rules. unfold bind, get_ref. rewrite Hl.
  cbn. now rewrite Hr.
Qed.

(** A missing left operand with a right one: [*lhs] has no value. *)
Lemma orred_left_missing fuel ref mid r rest :
  matchAndAddPossiblyAndedExpr fuel ref = Ok None (String "|" mid) ->
  matchAndAddPossiblyAndedExpr fuel mid = Ok (Some r) rest ->
  matchAndAddPossiblyOrredExpr (S fuel) ref = Undefined EmptyOptional.
Proof.
  intros Hl Hr. unfold_rules. unfold bind, get_ref. rewrite Hl.
  cbn. now rewrite Hr.
Qed.

(** ** The grouping rule *)

(** A group that is opened, parsed and not closed fails at the ['(']. *)
Lemma subexpr_unclosed fuel ref s rest :
  matchAndAddPossiblyOrredExpr fuel ref = Ok (Some s) rest ->
  (forall r, rest <> String ")" r) ->
  matchSubExpr (S fuel) (String "(" ref) = Ok None (String "(" ref).
Proof.
  intros Hs Hrest. unfold_rules. unfold bind, get_ref. cbn. rewrite Hs.
  destruct (matchChar_defined ")" rest) as (b & r & E). rewrite E.
  apply matchChar_Ok in E as [[-> E]|[-> _]]; [|reflexivity].
  now destruct (Hrest r).
Qed.

(** A closed group is the tree of its contents. *)
Lemma subexpr_closed fuel ref s rest :
  matchAndAddPossiblyOrredExpr fuel ref = Ok (Some s) (String ")" rest) ->
  matchSubExpr (S fuel) (String "(" ref) = Ok (Some s) rest.
Proof.
  intros Hs. unfold_rules. unfold bind, get_ref. cbn. now rewrite Hs.
Qed.

(** ** Escapes

    A rule entered between two escapes stops between two escapes: the
    backslashes that the rules read as escapes are those of a reading
    from left to right. *)

Ltac eqb_subst :=
  repeat match goal with
    | E : Ascii.eqb _ _ = true |- _ => apply Ascii.eqb_eq in E; subst
    | E : char_true _ = false |- _ =>
        apply negb_false_iff, Ascii.eqb_eq in E; subst
    end.

Ltac unfold_cursor_in H :=
  unfold matchDot, matchPossiblyEscapedChar, matchAnyCharIn,
    matchCharNotIn, matchAnyChar, matchChar in H;
  unfold deref in H;
  unfold bind, ret, get_ref, set_ref, undefined, out_of_fuel in H;
  cbn [find_first_of] in H.

Ltac simpl_dangling :=
  repeat match goal with
    | D : context [dangling (String _ _)] |- _ => progress cbn in D
    | D : context [if Ascii.eqb ?a ?b then _ else _],
      E : Ascii.eqb ?a ?b = _ |- _ => rewrite E in D
    | |- context [dangling (String _ _)] => progress cbn
    | E : Ascii.eqb ?a ?b = _ |- context [if Ascii.eqb ?a ?b then _ else _] =>
        rewrite E
    end.

Ltac unfold_cursor :=
  unfold matchDot, matchPossiblyEscapedChar, matchAnyCharIn,
    matchCharNotIn, matchAnyChar, matchChar;
  unfold deref;
  unfold bind, ret, get_ref, set_ref, undefined, out_of_fuel;
  cbn [find_first_of].

Ltac rewrite_char_facts :=
  match goal with
  | E : Ascii.eqb ?a ?b = _ |- context [Ascii.eqb ?a ?b] => rewrite E
  | E : char_true ?a = _ |- context [char_true ?a] => rewrite E
  | E : maybeEscape ?a = _ |- context [maybeEscape ?a] => rewrite E
  | |- context [char_true NUL] => change (char_true NUL) with false
  | |- context [Ascii.eqb ?a ?b] =>
      lazymatch a with
      | Ascii _ _ _ _ _ _ _ _ =>
          lazymatch b with
          | Ascii _ _ _ _ _ _ _ _ =>
              let v := eval vm_compute in (Ascii.eqb a b) in
              change (Ascii.eqb a b) with v
          end
      end
  end.

Ltac use_aligned :=
  repeat (simpl_dangling;
          match goal with
          | A : aligned ?m, E : ?m ?x = Ok _ _, D : dangling ?x = false |- _ =>
              let D' := fresh "D" in
              pose proof (A _ _ _ E D) as D'; clear E
          end).

(** The four rules are aligned. *)
Lemma rules_aligned fuel :
  aligned (matchSubExpr fuel) /\
  aligned (matchAndAddExprWithPossiblePostfix fuel) /\
  aligned (matchAndAddPossiblyAndedExpr fuel) /\
  aligned (matchAndAddPossiblyOrredExpr fuel).
Proof.
  induction fuel as [|fuel (IHs & IHp & IHa & IHo)].
  - repeat apply conj; intros ref r rest H; discriminate H.
  - repeat apply conj; intros ref r rest H D;
      unfold_rules_in H; unfold_cursor_in H;
      break_match_eqs; inv_oks; eqb_subst; use_aligned; simpl_dangling;
      try assumption; try discriminate.
Qed.

(** ** Independence from what follows the parsed text

    What a rule returns on [s] it returns on [s] followed by [x], as
    long as [s] does not end on a lone backslash and the rule did not
    stop at the end of [s] for want of a character that [x] supplies
    ([rules_frame]). With it a parsed expression keeps its tree inside
    a group and on the left of a ['|']. *)

Lemma get_append pos (s x : string) c :
  String.get pos s = Some c -> String.get pos (s ++ x) = Some c.
Proof.
  revert pos; induction s as [|c' s IH]; intros pos H; [discriminate|].
  destruct pos as [|pos]; cbn in *; auto.
Qed.

Lemma closer_head y :
  closer y = true ->
  exists r, y = String "|" r \/ y = String ")" r.
Proof.
  destruct y as [|c r]; [discriminate|]. cbn. intros H. exists r.
  apply orb_true_iff in H as [H|H]; apply Ascii.eqb_eq in H; subst; auto.
Qed.

Lemma closing_head y : closing y = true -> exists r, y = String ")" r.
Proof.
  destruct y as [|c r]; [discriminate|]. cbn. intros H. exists r.
  apply Ascii.eqb_eq in H; now subst.
Qed.

Lemma closing_closer y : closing y = true -> closer y = true.
Proof. intros H. apply closing_head in H as [r ->]. reflexivity. Qed.

(** Away from a ['('] the group fails in place; on a closer so do the
    dot, the character rule and the postfix character. *)
Lemma subexpr_not_open fuel y :
  opens y = false -> matchSubExpr (S fuel) y = Ok None y.
Proof.
  intros H. unfold_rules. unfold bind, get_ref, matchChar.
  destruct y as [|c r]; [reflexivity|]. cbn in H. now rewrite H.
Qed.

Lemma closer_not_open y : closer y = true -> opens y = false.
Proof. intros H. apply closer_head in H as [r [->| ->]]; reflexivity. Qed.

Lemma charAtom_closer y : closer y = true -> matchCharAtom y = Ok None y.
Proof. intros H. apply closer_head in H as [r [->| ->]]; reflexivity. Qed.

Lemma matchAnyCharIn_closer y :
  closer y = true -> matchAnyCharIn "+?*" y = Ok NUL y.
Proof. intros H. apply closer_head in H as [r [->| ->]]; reflexivity. Qed.

Lemma matchAnyCharIn_frame filt s c rest x :
  matchAnyCharIn filt s = Ok c rest ->
  (s = "" -> matchAnyCharIn filt x = Ok NUL x) ->
  matchAnyCharIn filt (s ++ x) = Ok c (rest ++ x).
Proof.
  destruct s as [|front s]; intros H Hx.
  - inv H. now apply Hx.
  - unfold matchAnyCharIn in *. cbn [append].
    destruct (find_first_of filt front) as [pos|]; [|now inv H].
    destruct (String.get pos (String front s)) as [c'|] eqn:G; [|discriminate].
    inv H. change (String front (rest ++ x)) with (String front rest ++ x).
    now rewrite (get_append _ _ _ _ G).
Qed.

(** The dot and the character rule do not depend on what follows the
    characters they read, unless they read up to the end. *)
Lemma charAtom_frame s r rest x :
  matchCharAtom s = Ok r rest ->
  dangling s = false ->
  (r = None -> closer (rest ++ x) = true) ->
  matchCharAtom (s ++ x) = Ok r (rest ++ x) /\ opens (s ++ x) = false.
Proof.
  intros H D Hx. unfold matchCharAtom in H. unfold_cursor_in H.
  break_match_eqs; inv_oks; eqb_subst; simpl_dangling; try discriminate;
    try specialize (Hx eq_refl);
    try (cbn [append] in *; split;
         [now apply charAtom_closer | now apply closer_not_open]);
    cbn [append]; unfold matchCharAtom, opens;
    unfold_cursor;
    repeat first [rewrite_char_facts | progress cbv beta iota]; auto.
Qed.

(** So it is for the atom, given the same for the group, and for the
    postfix character. *)
Lemma atom_frame fuel s r rest x :
  frame_success (matchSubExpr fuel) ->
  matchAtom fuel s = Ok r rest ->
  dangling s = false ->
  (r = None -> closer (rest ++ x) = true) ->
  matchAtom fuel (s ++ x) = Ok r (rest ++ x).
Proof.
  intros IHs H D Hx. unfold matchAtom in *. unfold bind in *.
  destruct (matchSubExpr fuel s) as [[t|] r1| |] eqn:E; try discriminate.
  - inv H. now rewrite (IHs _ _ _ x E D).
  - destruct fuel as [|fuel]; [discriminate|].
    apply matchSubExpr_restores in E as ->.
    fold matchCharAtom in *.
    destruct (charAtom_frame _ _ _ x H D Hx) as [Hc Ho].
    now rewrite (subexpr_not_open _ _ Ho).
Qed.

Lemma wrapPostfix_frame m r1 r rest x :
  wrapPostfix m r1 = Ok r rest ->
  (r1 = "" -> closer x = true) ->
  wrapPostfix m (r1 ++ x) = Ok r (rest ++ x).
Proof.
  intros H Hx. destruct m as [atom|]; cbn in *; [|now inv H].
  unfold bind in *.
  destruct (matchAnyCharIn "+?*" r1) as [c r2| |] eqn:E; try discriminate.
  rewrite (matchAnyCharIn_frame _ _ _ _ x E).
  - destruct (char_true c); now inv H.
  - intros ->. now apply matchAnyCharIn_closer, Hx.
Qed.

(** Nothing is left of the empty view. *)
Lemma empty_rest (m : M parsed) r rest :
  shrinks m -> m "" = Ok r rest -> rest = "".
Proof.
  intros S H. apply S in H as [H _]. destruct rest; [reflexivity|].
  cbn in H. lia.
Qed.

(** The four rules, by induction on the depth of the calls. *)
Lemma rules_frame fuel :
  frame_success (matchSubExpr fuel) /\
  frame_postfix (matchAndAddExprWithPossiblePostfix fuel) /\
  frame_closer (matchAndAddPossiblyAndedExpr fuel) /\
  frame_closing (matchAndAddPossiblyOrredExpr fuel).
Proof.
  induction fuel as [|fuel (IHs & IHp & IHa & IHo)].
  - repeat apply conj; intros s r rest x H; discriminate H.
  - destruct (rules_aligned fuel) as (As & Ap & Aa & Ao).
    destruct (rules_shrink fuel) as (Ss & Sp & Sa & So).
    repeat apply conj.
    + (* the group *)
      intros s t rest x H D.
      unfold_rules_in H. unfold bind, get_ref in H.
      destruct (matchChar "(" s) as [[|] s'| |] eqn:E1; try discriminate.
      apply matchChar_Ok in E1 as [[_ ->]|[? _]]; [|discriminate].
      destruct (matchAndAddPossiblyOrredExpr fuel s')
        as [[t'|] r1| |] eqn:E2; try discriminate.
      destruct (matchChar ")" r1) as [[|] r2| |] eqn:E3; try discriminate.
      apply matchChar_Ok in E3 as [[_ ->]|[? _]]; [|discriminate].
      inv H. cbn [append]. apply subexpr_closed.
      change (String ")" (rest ++ x)) with (String ")" rest ++ x).
      apply IHo; auto.
    + (* the postfix *)
      intros s r rest x H D Hx.
      rewrite postfix_unfold in *. unfold bind in *.
      destruct (matchAtom fuel s) as [m r1| |] eqn:E; try discriminate.
      assert (Hr1 : m = None -> closer (r1 ++ x) = true).
      { intros ->. cbn in H. inv H. auto. }
      rewrite (atom_frame _ _ _ _ x IHs E D Hr1).
      apply wrapPostfix_frame; [exact H|].
      intros ->. destruct m as [atom|]; cbn in H.
      * unfold bind in H. cbn in H. inv H. auto.
      * inv H. auto.
    + (* the sequence *)
      intros s r rest x H D Hx.
      unfold_rules_in H. unfold_rules. unfold bind in *.
      destruct (matchAndAddExprWithPossiblePostfix fuel s)
        as [[l|] r1| |] eqn:E1; try discriminate.
      * destruct (matchAndAddPossiblyAndedExpr fuel r1)
          as [rhs r2| |] eqn:E2; try discriminate.
        assert (r2 = rest) as -> by (destruct rhs; now inv H).
        rewrite (IHp _ _ _ x E1 D).
        -- rewrite (IHa _ _ _ x E2 (Ap _ _ _ E1 D) Hx).
           destruct rhs; now inv H.
        -- intros [?| ->]; [discriminate|].
           now rewrite (empty_rest _ _ _ Sa E2) in Hx.
      * inv H. rewrite (IHp _ _ _ x E1 D); auto.
    + (* the alternation *)
      intros s r rest x H D Hx.
      unfold_rules_in H. unfold_rules. unfold bind, get_ref in *.
      destruct (matchAndAddPossiblyAndedExpr fuel s)
        as [lhs r1| |] eqn:E1; try discriminate.
      pose proof (Aa _ _ _ E1 D) as D1.
      destruct (matchChar "|" r1) as [[|] r2| |] eqn:E2; try discriminate.
      * apply matchChar_Ok in E2 as [[_ ->]|[? _]]; [|discriminate].
        rewrite (IHa _ _ _ x E1 D eq_refl). cbn.
        destruct (matchAndAddPossiblyAndedExpr fuel r2)
          as [[rr|] r3| |] eqn:E3; try discriminate.
        -- destruct lhs as [l|]; [|discriminate]. inv H.
           now rewrite (IHa _ _ _ x E3 D1 (closing_closer _ Hx)).
        -- unfold_monad_in H. inv H. discriminate.
      * apply matchChar_Ok in E2 as [[? _]|[_ ->]]; [discriminate|].
        unfold_monad_in H. inv H.
        rewrite (IHa _ _ _ x E1 D (closing_closer _ Hx)).
        apply closing_head in Hx as [y Hy]. now rewrite Hy.
Qed.

Lemma fuel_for_append_l (s x : string) : (fuel_for s <= fuel_for (s ++ x))%nat.
Proof. unfold fuel_for. rewrite length_append. lia. Qed.

Lemma fuel_for_append_r (s x : string) : (fuel_for x <= fuel_for (s ++ x))%nat.
Proof. unfold fuel_for. rewrite length_append. lia. Qed.

(** X9. For sequences [A] and [B] that the sequence rule accepts,
    [A] wholly and without ending on a lone backslash, ["A|B"] is the
    OR node over the tree of [A] and the tree of [B]. *)
Lemma alternation_of_sequences A B tA tB rest :
  parseAnded A = Ok (Some tA) "" ->
  dangling A = false ->
  parseAnded B = Ok (Some tB) rest ->
  parseOrred (A ++ "|" ++ B) = Ok (Some (Node OR [tA; tB] 0 0)) rest.
Proof.
  intros HA D HB.
  set (fuel := fuel_for (A ++ "|" ++ B)).
  assert (FA : (fuel_for A <= fuel)%nat) by apply fuel_for_append_l.
  assert (FB : (fuel_for B <= fuel)%nat).
  { etransitivity; [|apply fuel_for_append_r].
    apply (fuel_for_append_r "|" B). }
  destruct (fuel_for_stable A fuel FA) as (_ & _ & EA & _).
  destruct (fuel_for_stable B fuel FB) as (_ & _ & EB & _).
  rewrite HA in EA. rewrite HB in EB.
  destruct (rules_frame fuel) as (_ & _ & Fa & _).
  apply (Fa _ _ _ ("|" ++ B)) in EA; [|exact D|reflexivity].
  destruct (fuel_for_stable (A ++ "|" ++ B) (S fuel)) as (_ & _ & _ & <-);
    [unfold fuel; lia|].
  now apply orred_both with (mid := B).
Qed.

(** The sequence and alternation rules, one call deep. *)
Lemma anded_unfold fuel :
  matchAndAddPossiblyAndedExpr (S fuel) =
  (lhs <- matchAndAddExprWithPossiblePostfix fuel ;;
   match lhs with
   | Some l =>
       rhs <- matchAndAddPossiblyAndedExpr fuel ;;
       match rhs with
       | Some r => ret (Some (mkNode AND [l; r] 0 0))
       | None => ret lhs
       end
   | None => ret lhs
   end).
Proof. reflexivity. Qed.

Lemma orred_unfold fuel :
  matchAndAddPossiblyOrredExpr (S fuel) =
  (lhs <- matchAndAddPossiblyAndedExpr fuel ;;
   backup <- get_ref ;;
   bar <- matchChar "|" ;;
   if bar then
     rhs <- matchAndAddPossiblyAndedExpr fuel ;;
     match rhs with
     | Some r => l <- deref lhs ;; ret (Some (mkNode OR [l; r] 0 0))
     | None => set_ref backup ;; ret lhs
     end
   else set_ref backup ;; ret lhs).
Proof. reflexivity. Qed.

(** A group that ends the input is a postfix, a sequence and an
    alternation of its own. *)
Lemma orred_of_group fuel s t :
  matchSubExpr (S (S fuel)) s = Ok (Some t) "" ->
  matchAndAddPossiblyOrredExpr (S (S (S (S (S fuel))))) s = Ok (Some t) "".
Proof.
  intros H.
  assert (HP : matchAndAddExprWithPossiblePostfix (S (S (S fuel))) s =
               Ok (Some t) "").
  { rewrite postfix_unfold. unfold bind, matchAtom, bind. now rewrite H. }
  assert (HE : matchAndAddPossiblyAndedExpr (S (S (S fuel))) "" = Ok None "")
    by reflexivity.
  assert (HA : matchAndAddPossiblyAndedExpr (S (S (S (S fuel)))) s =
               Ok (Some t) "").
  { rewrite anded_unfold. unfold bind. now rewrite HP, HE. }
  rewrite orred_unfold. unfold bind. now rewrite HA.
Qed.

(** X8. For an expression [E] that the alternation rule accepts
    wholly and that does not end on a lone backslash, ["(E)"] has the
    tree of [E]. *)
Lemma grouping_transparent E t :
  parseOrred E = Ok (Some t) "" ->
  dangling E = false ->
  parseOrred ("(" ++ E ++ ")") = Ok (Some t) "".
Proof.
  intros HE D.
  set (fuel := fuel_for ("(" ++ E ++ ")")).
  assert (FE : (fuel_for E <= S fuel)%nat).
  { unfold fuel, fuel_for. cbn [append String.length].
    rewrite length_append. lia. }
  destruct (fuel_for_stable E (S fuel) FE) as (_ & _ & _ & EE).
  rewrite HE in EE.
  destruct (rules_frame (S fuel)) as (_ & _ & _ & Fo).
  apply (Fo _ _ _ ")") in EE; [|exact D|reflexivity].
  apply subexpr_closed, orred_of_group in EE.
  destruct (fuel_for_stable ("(" ++ E ++ ")") (S (S (S (S (S fuel))))))
    as (_ & _ & _ & <-); [unfold fuel; lia|exact EE].
Qed.

(** X12. For every view [X] that the atom rules accept wholly,
    without ending on a lone backslash: [X] alone stays unwrapped,
    ["X+"] is NONZERO over the tree of [X], and on ["X?"] and ["X*"]
    the view is indexed past its end. *)
Lemma postfix_of_atom fuel X atom :
  matchAtom fuel X = Ok (Some atom) "" ->
  dangling X = false ->
  matchAndAddExprWithPossiblePostfix (S fuel) X = Ok (Some atom) "" /\
  matchAndAddExprWithPossiblePostfix (S fuel) (X ++ "+") =
    Ok (Some (Node NONZERO [atom] 0 0)) "" /\
  matchAndAddExprWithPossiblePostfix (S fuel) (X ++ "?") =
    Undefined OutOfRange /\
  matchAndAddExprWithPossiblePostfix (S fuel) (X ++ "*") =
    Undefined OutOfRange.
Proof.
  intros H D.
  destruct (rules_frame fuel) as (Fs & _).
  assert (HX : forall x, matchAtom fuel (X ++ x) = Ok (Some atom) x).
  { intros x. apply (atom_frame _ _ _ _ x Fs H D). discriminate. }
  rewrite !postfix_unfold. unfold bind. rewrite H, !HX.
  repeat split.
Qed.

(** * The claims of the specification *)

(** ** Postfix wrapping *)

(** Claim C1 (postfix wrapping), evaluated where the code departs from
    it. The atom ["a"] alone is returned unwrapped and ["a+"] gives
    NONZERO over it, as claimed. After ['?'] and ['*'] the node is not
    chosen from the postfix character but from a later character of
    the input: ["a?b"] gives MANY instead of OPT, ["a*b?"] gives OPT
    instead of MANY, and on ["a?"] and ["a*"], where no such character
    exists, the view is indexed past its end and no node is produced
    ([postfix_of_atom] has the same for every atom). *)
Theorem postfix_wrapping_reads_a_later_char :
  parsePostfix "a" = Ok (Some (Node CHAR [] 97 98)) "" /\
  parsePostfix "a+" = Ok (Some (Node NONZERO [Node CHAR [] 97 98] 0 0)) "" /\
  parsePostfix "a?b" = Ok (Some (Node MANY [Node CHAR [] 97 98] 0 0)) "b" /\
  parsePostfix "a*b?" = Ok (Some (Node OPT [Node CHAR [] 97 98] 0 0)) "b?" /\
  parsePostfix "a?" = Undefined OutOfRange /\
  parsePostfix "a*" = Undefined OutOfRange.
Proof. repeat split; vm_compute; reflexivity. Qed.

(** ** [matchAnyCharIn] *)

(** What holds of [matchAnyCharIn]: a first character outside the set,
    or no character at all, gives the null sentinel and consumes
    nothing. *)
Lemma matchAnyCharIn_absent filt ref :
  (forall c r, ref = String c r -> find_first_of filt c = None) ->
  matchAnyCharIn filt ref = Ok NUL ref.
Proof.
  intros H. destruct ref as [|c r]; [reflexivity|].
  unfold matchAnyCharIn. now rewrite (H c r eq_refl).
Qed.

(** A first character that is the first one of the set is consumed and
    returned. *)
Lemma matchAnyCharIn_first c filt rest :
  matchAnyCharIn (String c filt) (String c rest) = Ok c rest.
Proof.
  unfold matchAnyCharIn. cbn. now rewrite Ascii.eqb_refl.
Qed.

(** Claim C2 ([matchAnyCharIn] returns the character it consumes),
    evaluated where the code departs from it. ['?'] is at position 1
    of the set ["+?*"], and on the view ["?b"] the call consumes the
    ['?'] and returns the character at position 1 of the view, ['b'];
    likewise ['*'] is at position 2 and on ["*+x"] the call returns
    ['x']. *)
Theorem matchAnyCharIn_returns_char_at_set_position :
  find_first_of "+?*" "?" = Some 1%nat /\
  matchAnyCharIn "+?*" "?b" = Ok "b"%char "b" /\
  find_first_of "+?*" "*" = Some 2%nat /\
  matchAnyCharIn "+?*" "*+x" = Ok "x"%char "+x".
Proof. repeat split. Qed.

(** X19. The index is past the end exactly when the first character
    of the view is found in the set at a position that is not below
    the length of the view. *)
Lemma matchAnyCharIn_out_of_range filt ref :
  matchAnyCharIn filt ref = Undefined OutOfRange <->
  exists front rest pos,
    ref = String front rest /\
    find_first_of filt front = Some pos /\
    (String.length ref <= pos)%nat.
Proof.
  assert (G : forall (s : string) pos,
             String.get pos s = None <-> (String.length s <= pos)%nat).
  { induction s as [|c s IH]; intros pos; cbn.
    - split; [lia|reflexivity].
    - destruct pos as [|pos]; [split; [discriminate|lia]|].
      rewrite IH. lia. }
  unfold matchAnyCharIn. split.
  - destruct ref as [|front rest]; [discriminate|].
    destruct (find_first_of filt front) as [pos|] eqn:F; [|discriminate].
    destruct (String.get pos (String front rest)) eqn:E; [discriminate|].
    intros _. exists front, rest, pos.
    split; [reflexivity|]. split; [exact F|]. now apply G.
  - intros (front & rest & pos & -> & -> & Hle).
    apply G in Hle. now rewrite Hle.
Qed.

(** Claim C3 ([ref[pos]] is within bounds), evaluated where the code
    departs from it. On the view ["?"], of length 1, ['?'] is found at
    position 1 of the set, the view has no character at position 1,
    and the call leaves defined behaviour; the parser reaches this call
    on the input ["a?"]. *)
Theorem matchAnyCharIn_index_past_the_end :
  find_first_of "+?*" "?" = Some 1%nat /\
  String.length "?" = 1%nat /\
  String.get 1 "?" = None /\
  matchAnyCharIn "+?*" "?" = Undefined OutOfRange /\
  matchAtom (fuel_for "a?") "a?" = Ok (Some (Node CHAR [] 97 98)) "?" /\
  parse "a?" = Undefined OutOfRange.
Proof. repeat split. Qed.

(** ** Failure and consumption *)

(** Claim C4 (no rule consumes input when it fails), evaluated where
    the code departs from it. On the view that holds a single
    backslash the character rule fails and leaves the view empty, one
    position further; the postfix, sequence and alternation rules,
    which end on the character rule, fail in the same state. (The
    grouping and dot rules do restore the view: [matchSubExpr_restores],
    [matchDot_restores]; [rules_restore] gives the views on which the
    other rules do not.) *)
Theorem failure_keeps_lone_backslash_consumed :
  matchPossiblyEscapedChar "\" = Ok None "" /\
  parsePostfix "\" = Ok None "" /\
  parseAnded "\" = Ok None "" /\
  parseOrred "\" = Ok None "" /\
  position "\" "" = 1%nat.
Proof. repeat split. Qed.

(** Claim C6 (a backslash that ends the input): entered on the last
    character of the input, a backslash, the character rule consumes
    the backslash, its second read returns the null sentinel and
    consumes nothing, and the rule fails with the view empty, that is
    with the cursor one position after the one it was entered at. *)
Theorem trailing_backslash_is_consumed (pre : string) :
  let input := pre ++ "\" in
  matchCharNotIn "|*+?()" "\" = Ok "\"%char "" /\
  matchAnyChar "" = Ok NUL "" /\
  maybeEscape NUL = NUL /\
  matchPossiblyEscapedChar "\" = Ok None "" /\
  position input "" = S (position input "\").
Proof.
  cbv zeta. repeat split. unfold position. rewrite length_append. cbn. lia.
Qed.

(** ** The dot *)

(** Claim C5 (the node of ["."] covers every character), evaluated
    where the code departs from it. The node is CHAR with [begChar] 0
    and [endChar] [CHAR_MAX], without subnodes; as [endChar] is past the
    last character matched, [CHAR_MAX] itself is outside the range, and
    so is every negative character. *)
Theorem dot_range_excludes_char_max :
  parse "." = Ok (Some (Node CHAR [] 0 CHAR_MAX)) "" /\
  in_range (Node CHAR [] 0 CHAR_MAX) CHAR_MAX = false /\
  in_range (Node CHAR [] 0 CHAR_MAX) (CHAR_MAX - 1) = true /\
  in_range (Node CHAR [] 0 CHAR_MAX) CHAR_MIN = false.
Proof. repeat split. Qed.

(** ** Grouping *)

(** Claim C7 (a group is transparent, an unclosed one fails in place),
    evaluated where the code departs from it. ["(a?)"] gives MANY over
    the character, while ["a?"] alone indexes the view past its end and
    gives no tree; ["a\"] alone gives the tree of ["a"] with the whole
    input consumed, while ["(a\)"] gives no tree. Away from these two
    cases the group is transparent ([grouping_transparent]), and the
    second half of the claim holds ([matchSubExpr_restores],
    [subexpr_unclosed]): ["("] gives no tree and leaves the view at
    ["("]. *)
Theorem grouping_changes_the_tree :
  parse "(a?)" = Ok (Some (Node MANY [Node CHAR [] 97 98] 0 0)) "" /\
  parse "a?" = Undefined OutOfRange /\
  parse "a\" = Ok (Some (Node CHAR [] 97 98)) "" /\
  parse "(a\)" = Ok None "(a\)" /\
  parse "(" = Ok None "(".
Proof. repeat split. Qed.

(** ** Alternation *)

(** Claim C8 (["A|B"] is OR over the trees of [A] and [B]), evaluated
    where the code departs from it. The sequence rule accepts ["a\"]
    and ["b"], each wholly, with the trees of ["a"] and ["b"]; on
    ["a\|b"] the alternation rule returns an AND node, in which the
    ['|'] is a character. Likewise the left child of ["a?|b"] is MANY
    over the character, which is not the tree of ["a?"]. For a left
    sequence that does not end on a lone backslash the claim holds
    ([alternation_of_sequences]), and so does its second half
    ([orred_right_fails]): on ["a|)"] the right operand fails, the view
    goes back to ["|)"] and the tree of ["a"] is returned. *)
Theorem alternation_after_trailing_backslash :
  parseAnded "a\" = Ok (Some (Node CHAR [] 97 98)) "" /\
  parseAnded "b" = Ok (Some (Node CHAR [] 98 99)) "" /\
  parseOrred "a\|b" =
    Ok (Some (Node AND
                [Node CHAR [] 97 98;
                 Node AND [Node CHAR [] 124 125; Node CHAR [] 98 99] 0 0]
                0 0)) "" /\
  parseAnded "a?" = Undefined OutOfRange /\
  parseOrred "a?|b" =
    Ok (Some (Node OR
                [Node MANY [Node CHAR [] 97 98] 0 0; Node CHAR [] 98 99]
                0 0)) "" /\
  parseOrred "a|)" = Ok (Some (Node CHAR [] 97 98)) "|)".
Proof. repeat split. Qed.

(** ** Literal characters *)

Lemma literal_alone (c : char) :
  c <> NUL ->
  find_first_of "|*+?()\." c = None ->
  char_to_int c <> CHAR_MAX ->
  parse (String c "") =
  Ok (Some (Node CHAR [] (char_to_int c) (char_to_int c + 1))) "".
Proof.
  destruct c as [b0 b1 b2 b3 b4 b5 b6 b7].
  destruct b0, b1, b2, b3, b4, b5, b6, b7; intros Hnul Hop Hmax;
    first [reflexivity
          | discriminate Hop
          | exfalso; apply Hnul; reflexivity
          | exfalso; apply Hmax; reflexivity].
Qed.

Lemma literal_escaped (e : char) :
  e <> NUL ->
  char_to_int (maybeEscape e) <> CHAR_MAX ->
  parse (String "\" (String e "")) =
  Ok (Some (Node CHAR [] (char_to_int (maybeEscape e))
              (char_to_int (maybeEscape e) + 1))) "".
Proof.
  destruct e as [b0 b1 b2 b3 b4 b5 b6 b7].
  destruct b0, b1, b2, b3, b4, b5, b6, b7; intros Hnul Hmax;
    first [reflexivity
          | exfalso; apply Hnul; reflexivity
          | exfalso; apply Hmax; reflexivity].
Qed.

Lemma maybeEscape_other (e : char) :
  find_first_of "bnfrt" e = None -> maybeEscape e = e.
Proof.
  destruct e as [b0 b1 b2 b3 b4 b5 b6 b7].
  destruct b0, b1, b2, b3, b4, b5, b6, b7; intros H;
    first [reflexivity | discriminate H].
Qed.

(** Claim C9 (literal characters), amended. A single character [c]
    other than ['\0'], the operators [| * + ? ( ) \], the dot and the
    largest [char] gives a CHAR node from [c] to [c+1] without
    subnodes, the whole input consumed; a backslash followed by a
    character [e] other than ['\0'] gives a CHAR node from [v] to
    [v+1], where [v], the value of the escape table at [e]
    (backspace, newline, form feed, carriage return and tab for
    [b n f r t], and [e] itself otherwise), is not the largest
    [char]. *)
Theorem literal_char_node (c e : char) :
  c <> NUL ->
  find_first_of "|*+?()\." c = None ->
  char_to_int c <> CHAR_MAX ->
  e <> NUL ->
  char_to_int (maybeEscape e) <> CHAR_MAX ->
  (parse (String c "") =
     Ok (Some (Node CHAR [] (char_to_int c) (char_to_int c + 1))) "" /\
   nSubNodes (typeSpecs CHAR) = 0%nat) /\
  parse (String "\" (String e "")) =
    Ok (Some (Node CHAR [] (char_to_int (maybeEscape e))
                (char_to_int (maybeEscape e) + 1))) "" /\
  (maybeEscape "b" = "008" /\ maybeEscape "n" = "010" /\
   maybeEscape "f" = "012" /\ maybeEscape "r" = "013" /\
   maybeEscape "t" = "009")%char /\
  (find_first_of "bnfrt" e = None -> maybeEscape e = e).
Proof.
  intros Hc Hop Hmax He Hemax. repeat split.
  - now apply literal_alone.
  - now apply literal_escaped.
  - apply maybeEscape_other.
Qed.

(** The amended claim at ['a'] and at the escape of ['x'], with the
    entry of the table for ['n']. *)
Lemma literal_char_node_witness :
  parse "a" = Ok (Some (Node CHAR [] 97 98)) "" /\
  parse "\x" = Ok (Some (Node CHAR [] 120 121)) "" /\
  maybeEscape "n" = "010"%char /\
  maybeEscape "x" = "x"%char.
Proof.
  destruct (literal_char_node "a" "x")
    as ((Ha & _) & Hx & (_ & Hn & _) & Hother);
    try discriminate; try reflexivity.
  split; [exact Ha|]. split; [exact Hx|]. split; [exact Hn|].
  apply Hother. reflexivity.
Defined.

(** Claim C9 as stated fails at the dot, which is none of
    [| * + ? ( ) \]: its node is the wildcard's, not the one from ['.']
    to the next character. *)
Lemma literal_dot_counterexample :
  find_first_of "|*+?()\" "." = None /\
  parse "." = Ok (Some (Node CHAR [] 0 127)) "" /\
  parse "." <>
    Ok (Some (Node CHAR [] (char_to_int ".") (char_to_int "." + 1))) "".
Proof. repeat split. discriminate. Qed.

(** ** The driver *)

(** Claim C10 ([test] reads the optional only when it holds a node),
    evaluated where the code departs from it. On the empty string the
    parse gives no node, and outside constant evaluation [test] goes on
    to [t->printf()] on the empty optional. Under constant evaluation
    the call is skipped, and on ["a"] the node is printed. *)
Theorem test_reads_empty_optional :
  parse "" = Ok None "" /\
  test false "" = Undefined EmptyOptional /\
  test true "" = Ok (true, []) "" /\
  test false "a" = Ok (true, [" CHAR a b"]) "".
Proof. repeat split. Qed.

(** * Further properties *)

(** ** What is left is a suffix *)

Lemma suffix_refl s : suffix_of s s.
Proof. now exists "". Qed.

Lemma suffix_cons c rest ref :
  suffix_of rest ref -> suffix_of rest (String c ref).
Proof. intros [pre ->]. now exists (String c pre). Qed.

Lemma suffix_tail c rest ref :
  suffix_of (String c rest) ref -> suffix_of rest ref.
Proof.
  intros [pre ->]. exists (pre ++ String c "").
  induction pre as [|a pre IH]; cbn; [reflexivity|now rewrite IH].
Qed.

Lemma suffix_trans a b c : suffix_of a b -> suffix_of b c -> suffix_of a c.
Proof.
  intros [p ->] [q ->]. exists (q ++ p).
  induction q as [|x q IH]; cbn; [reflexivity|now rewrite IH].
Qed.

Lemma suffix_length rest ref :
  suffix_of rest ref -> (String.length rest <= String.length ref)%nat.
Proof. intros [pre ->]. rewrite length_append. lia. Qed.

Create HintDb suffix.
#[local] Hint Resolve suffix_refl suffix_cons suffix_tail : suffix.

Lemma rules_leave_suffix fuel k ref r rest :
  run k fuel ref = Ok r rest -> suffix_of rest ref.
Proof.
  revert k ref r rest.
  induction fuel as [|fuel IH]; intros k ref r rest H;
    [destruct k; discriminate H|].
  assert (IHs := IH SubExpr). assert (IHp := IH Postfix).
  assert (IHa := IH Sequence). assert (IHo := IH Alternation).
  cbn [run] in IHs, IHp, IHa, IHo. clear IH.
  destruct k; cbn [run] in H; unfold_rules_in H; unfold_cursor_in H;
    break_match_eqs; inv_oks;
    repeat match goal with
      | E : matchSubExpr fuel _ = Ok _ _ |- _ => apply IHs in E
      | E : matchAndAddExprWithPossiblePostfix fuel _ = Ok _ _ |- _ =>
          apply IHp in E
      | E : matchAndAddPossiblyAndedExpr fuel _ = Ok _ _ |- _ =>
          apply IHa in E
      | E : matchAndAddPossiblyOrredExpr fuel _ = Ok _ _ |- _ =>
          apply IHo in E
      end;
    eauto 7 using suffix_trans with suffix.
Qed.

(** ** The size of the tree *)

Ltac ih_rules fuel IH :=
  let IHs := fresh "IHs" in let IHp := fresh "IHp" in
  let IHa := fresh "IHa" in let IHo := fresh "IHo" in
  assert (IHs := IH SubExpr); assert (IHp := IH Postfix);
  assert (IHa := IH Sequence); assert (IHo := IH Alternation);
  cbn [run] in IHs, IHp, IHa, IHo; clear IH.

Lemma rules_tree_size fuel k ref r rest :
  run k fuel ref = Ok r rest ->
  (String.length rest <= String.length ref)%nat /\
  forall n, r = Some n ->
    (node_count n + 1 + 2 * String.length rest <= 2 * String.length ref)%nat.
Proof.
  revert k ref r rest.
  induction fuel as [|fuel IH]; intros k ref r rest H;
    [destruct k; discriminate H|].
  ih_rules fuel IH.
  destruct k; cbn [run] in H; unfold_rules_in H; unfold_cursor_in H;
    break_match_eqs; inv_oks;
    repeat match goal with
      | E : matchSubExpr fuel _ = Ok _ _ |- _ => apply IHs in E as [? ?]
      | E : matchAndAddExprWithPossiblePostfix fuel _ = Ok _ _ |- _ =>
          apply IHp in E as [? ?]
      | E : matchAndAddPossiblyAndedExpr fuel _ = Ok _ _ |- _ =>
          apply IHa in E as [? ?]
      | E : matchAndAddPossiblyOrredExpr fuel _ = Ok _ _ |- _ =>
          apply IHo in E as [? ?]
      | B : forall n, Some ?a = Some n -> _ |- _ => specialize (B a eq_refl)
      end;
    (split; [cbn [String.length] in *; lia|]);
    intros n' Hn';
    first [discriminate Hn' | injection Hn' as <- | subst];
    repeat match goal with
      | B : forall n, ?r = Some n -> _ |- _ => specialize (B _ eq_refl)
      end;
    try match goal with E : char_true NUL = true |- _ => discriminate E end;
    cbn [node_count mkNode map list_sum fold_right String.length] in *; lia.
Qed.

(** ** The shape of the tree *)

Lemma int_to_char_range z :
  CHAR_MIN <= int_to_char z <= CHAR_MAX.
Proof.
  unfold int_to_char, CHAR_MIN, CHAR_MAX.
  pose proof (Z.mod_pos_bound (z + 128) 256 eq_refl). lia.
Qed.

Lemma well_formed_char b e : well_formed (mkNode CHAR [] b e) = true.
Proof.
  unfold mkNode. cbn [well_formed typeSpecs nSubNodes List.length forallb].
  pose proof (int_to_char_range b). pose proof (int_to_char_range e).
  rewrite !andb_true_iff, !Z.leb_le. cbn. lia.
Qed.

Lemma well_formed_dot ref n rest :
  matchDot ref = Ok (Some n) rest -> well_formed n = true.
Proof.
  unfold matchDot. intros H. unfold_monad_in H. break_match_eqs; inv_oks.
  apply well_formed_char.
Qed.

Lemma well_formed_literal ref n rest :
  matchPossiblyEscapedChar ref = Ok (Some n) rest -> well_formed n = true.
Proof.
  unfold matchPossiblyEscapedChar. intros H. unfold_monad_in H.
  break_match_eqs; inv_oks; apply well_formed_char.
Qed.

Lemma well_formed_postfix c atom :
  well_formed atom = true ->
  well_formed (mkNode (postfix_type c) [atom] 0 0) = true.
Proof.
  intros H. unfold postfix_type.
  destruct (c =? char_to_int "+"); [|destruct (c =? char_to_int "?")];
    cbn; now rewrite H.
Qed.

Lemma well_formed_pair t l r :
  t = AND \/ t = OR ->
  well_formed l = true -> well_formed r = true ->
  well_formed (mkNode t [l; r] 0 0) = true.
Proof. intros [-> | ->] Hl Hr; cbn; now rewrite Hl, Hr. Qed.

(** X4. Every tree that a rule returns has the shape of the
    [typeSpecs] table throughout: a CHAR node has no subnode and two
    [char] values, OPT, MANY and NONZERO have one subnode, AND and OR
    two, and these hold 0 in both character fields. *)
Theorem trees_well_formed fuel k ref n rest :
  run k fuel ref = Ok (Some n) rest -> well_formed n = true.
Proof.
  revert k ref n rest.
  induction fuel as [|fuel IH]; intros k ref n rest H;
    [destruct k; discriminate H|].
  ih_rules fuel IH.
  destruct k; cbn [run] in H; unfold_rules_in H; unfold_monad_in H;
    break_match_eqs; inv_oks;
    repeat match goal with
      | E : matchSubExpr fuel _ = Ok (Some _) _ |- _ => apply IHs in E
      | E : matchAndAddExprWithPossiblePostfix fuel _ = Ok (Some _) _ |- _ =>
          apply IHp in E
      | E : matchAndAddPossiblyAndedExpr fuel _ = Ok (Some _) _ |- _ =>
          apply IHa in E
      | E : matchAndAddPossiblyOrredExpr fuel _ = Ok (Some _) _ |- _ =>
          apply IHo in E
      | E : matchDot _ = Ok (Some _) _ |- _ => apply well_formed_dot in E
      | E : matchPossiblyEscapedChar _ = Ok (Some _) _ |- _ =>
          apply well_formed_literal in E
      end;
    first [assumption
          | now apply well_formed_postfix
          | apply well_formed_pair; auto].
Qed.

(** ** Where the faults come from *)

Lemma lacks_suffix cs rest ref :
  suffix_of rest ref -> lacks cs ref = true -> lacks cs rest = true.
Proof.
  intros [pre ->]. induction pre as [|c pre IH]; cbn; [auto|].
  destruct (find_first_of cs c); [discriminate|exact IH].
Qed.

Lemma matchChar_suffix c ref b rest :
  matchChar c ref = Ok b rest -> suffix_of rest ref.
Proof.
  intros H. apply matchChar_Ok in H as [[_ ->]|[_ ->]]; auto with suffix.
Qed.

Lemma matchAnyCharIn_suffix filt ref c rest :
  matchAnyCharIn filt ref = Ok c rest -> suffix_of rest ref.
Proof.
  intros H. apply matchAnyCharIn_Ok in H as [->|[front ->]]; auto with suffix.
Qed.

Lemma charAtom_suffix ref r rest :
  matchCharAtom ref = Ok r rest -> suffix_of rest ref.
Proof.
  intros H. unfold matchCharAtom in H. unfold_cursor_in H.
  break_match_eqs; inv_oks; auto with suffix.
Qed.

Lemma matchDot_suffix ref r rest :
  matchDot ref = Ok r rest -> suffix_of rest ref.
Proof.
  intros H. unfold matchDot in H. unfold_monad_in H.
  break_match_eqs; inv_oks; eauto using matchChar_suffix.
Qed.

Lemma literal_suffix ref r rest :
  matchPossiblyEscapedChar ref = Ok r rest -> suffix_of rest ref.
Proof.
  intros H. unfold matchPossiblyEscapedChar in H. unfold_cursor_in H.
  break_match_eqs; inv_oks; auto with suffix.
Qed.

(** The dot and the character rule never leave defined behaviour. *)
Lemma matchDot_defined ref flt : matchDot ref <> Undefined flt.
Proof.
  unfold matchDot, bind. destruct (matchChar_defined "." ref) as (b & r & ->).
  now destruct b.
Qed.

Lemma literal_defined ref flt : matchPossiblyEscapedChar ref <> Undefined flt.
Proof.
  intros H. unfold matchPossiblyEscapedChar in H. unfold_cursor_in H.
  break_match_eqs; discriminate.
Qed.

Lemma matchChar_no_fault c ref flt : matchChar c ref <> Undefined flt.
Proof. destruct (matchChar_defined c ref) as (b & r & ->). discriminate. Qed.

(** [matchAnyCharIn] knows one fault, and on the postfix set it needs
    a ['?'] or a ['*'] for it. *)
Lemma matchAnyCharIn_fault filt ref flt :
  matchAnyCharIn filt ref = Undefined flt -> flt = OutOfRange.
Proof.
  unfold matchAnyCharIn. intros H. break_match_eqs; now inv H.
Qed.

Lemma postfix_char_safe ref flt :
  lacks "?*" ref = true -> matchAnyCharIn "+?*" ref <> Undefined flt.
Proof.
  intros L H. unfold matchAnyCharIn in H. cbn [find_first_of] in H.
  break_match_eqs; inv_oks; eqb_subst; try discriminate.
Qed.

(** The views reached from a view that lacks [cs] lack [cs]. *)
Ltac propagate_lacks fuel :=
  repeat match goal with
    | L : lacks ?cs ?v = true, E : matchChar _ ?v = Ok _ _ |- _ =>
        apply matchChar_suffix in E; apply (lacks_suffix cs) in E; [|exact L]
    | L : lacks ?cs ?v = true, E : matchAnyCharIn _ ?v = Ok _ _ |- _ =>
        apply matchAnyCharIn_suffix in E;
        apply (lacks_suffix cs) in E; [|exact L]
    | L : lacks ?cs ?v = true, E : matchDot ?v = Ok _ _ |- _ =>
        apply matchDot_suffix in E; apply (lacks_suffix cs) in E; [|exact L]
    | L : lacks ?cs ?v = true, E : matchPossiblyEscapedChar ?v = Ok _ _ |- _ =>
        apply literal_suffix in E; apply (lacks_suffix cs) in E; [|exact L]
    | L : lacks ?cs ?v = true, E : matchSubExpr fuel ?v = Ok _ _ |- _ =>
        apply (rules_leave_suffix fuel SubExpr) in E;
        apply (lacks_suffix cs) in E; [|exact L]
    | L : lacks ?cs ?v = true,
      E : matchAndAddExprWithPossiblePostfix fuel ?v = Ok _ _ |- _ =>
        apply (rules_leave_suffix fuel Postfix) in E;
        apply (lacks_suffix cs) in E; [|exact L]
    | L : lacks ?cs ?v = true,
      E : matchAndAddPossiblyAndedExpr fuel ?v = Ok _ _ |- _ =>
        apply (rules_leave_suffix fuel Sequence) in E;
        apply (lacks_suffix cs) in E; [|exact L]
    | L : lacks ?cs ?v = true,
      E : matchAndAddPossiblyOrredExpr fuel ?v = Ok _ _ |- _ =>
        apply (rules_leave_suffix fuel Alternation) in E;
        apply (lacks_suffix cs) in E; [|exact L]
    end.

Ltac inv_faults :=
  repeat match goal with
    | H : Undefined _ = Undefined _ |- _ => inv H
    end.

Ltac close_fault IHs IHp IHa IHo :=
  match goal with
  | L : lacks _ ?v = true, E : matchSubExpr _ ?v = Undefined _ |- _ =>
      exact (IHs _ L E)
  | L : lacks _ ?v = true,
    E : matchAndAddExprWithPossiblePostfix _ ?v = Undefined _ |- _ =>
      exact (IHp _ L E)
  | L : lacks _ ?v = true,
    E : matchAndAddPossiblyAndedExpr _ ?v = Undefined _ |- _ =>
      exact (IHa _ L E)
  | L : lacks _ ?v = true,
    E : matchAndAddPossiblyOrredExpr _ ?v = Undefined _ |- _ =>
      exact (IHo _ L E)
  | E : matchChar _ _ = Undefined _ |- _ =>
      exact (matchChar_no_fault _ _ _ E)
  | E : matchDot _ = Undefined _ |- _ => exact (matchDot_defined _ _ E)
  | E : matchPossiblyEscapedChar _ = Undefined _ |- _ =>
      exact (literal_defined _ _ E)
  end.

Lemma rules_in_range fuel k ref :
  lacks "?*" ref = true -> run k fuel ref = Undefined OutOfRange -> False.
Proof.
  revert k ref.
  induction fuel as [|fuel IH]; intros k ref L H;
    [destruct k; discriminate H|].
  ih_rules fuel IH.
  destruct k; cbn [run] in H; unfold_rules_in H; unfold_monad_in H;
    break_match_eqs; inv_oks; inv_faults; propagate_lacks fuel;
    try discriminate;
    first [close_fault IHs IHp IHa IHo
          | match goal with
            | L : lacks "?*" ?v = true,
              E : matchAnyCharIn "+?*" ?v = Undefined _ |- _ =>
                exact (postfix_char_safe _ _ L E)
            end].
Qed.

Lemma rules_have_operand fuel k ref :
  lacks "|" ref = true -> run k fuel ref = Undefined EmptyOptional -> False.
Proof.
  revert k ref.
  induction fuel as [|fuel IH]; intros k ref L H;
    [destruct k; discriminate H|].
  ih_rules fuel IH.
  destruct k; cbn [run] in H; unfold_rules_in H; unfold_monad_in H;
    break_match_eqs; inv_oks; inv_faults;
    try match goal with
      | E : matchAnyCharIn _ _ = Undefined _ |- _ =>
          apply matchAnyCharIn_fault in E; subst
      end;
    try discriminate;
    try match goal with
      | E : matchChar "|" ?v = Ok true _ |- _ =>
          let E' := fresh in
          pose proof E as E';
          apply matchChar_Ok in E' as [[_ ?]|[? _]]; [subst|discriminate]
      end;
    propagate_lacks fuel;
    try match goal with
      | L : lacks "|" (String "|" _) = true |- _ => discriminate L
      end;
    close_fault IHs IHp IHa IHo.
Qed.

(** ** Failure in place *)

(** X6. On a view without ['\0'], a rule that returns no node leaves
    the view as it was given, unless the view is a single backslash,
    which is then consumed. *)
Theorem failure_in_place fuel k ref rest :
  lacks (String NUL "") ref = true ->
  run k fuel ref = Ok None rest ->
  rest = ref \/ (ref = "\" /\ rest = "").
Proof.
  intros L H.
  assert (R : rest = ref \/ lone_escape ref rest).
  { destruct (rules_restore fuel) as (Rp & Ra & Ro).
    destruct k; cbn [run] in H; auto.
    left. eapply matchSubExpr_restores; eauto. }
  destruct R as [R|[R|[R|R]]]; auto; subst ref; cbn in L; discriminate L.
Qed.

Lemma sequence_starts_reserved fuel ref :
  starts_reserved ref = true ->
  run Sequence (S (S (S fuel))) ref = Ok None ref /\
  run Postfix (S (S fuel)) ref = Ok None ref.
Proof.
  intros H. cbn [run].
  assert (P : matchAndAddExprWithPossiblePostfix (S (S fuel)) ref =
              Ok None ref).
  { destruct ref as [|c rest]; [reflexivity|].
    unfold starts_reserved in H. cbn [find_first_of] in H.
    break_match_eqs; try discriminate; eqb_subst; reflexivity. }
  split; [|exact P]. rewrite anded_unfold. unfold bind. now rewrite P.
Qed.

(** ** The alternation rule, read backwards *)

(** The alternation rule returns an OR node over a left sequence that
    stops at a ['|'] and a right sequence parsed after it, or just
    what the sequence rule returns. *)
Lemma alternation_is_or_or_sequence fuel ref r rest :
  matchAndAddPossiblyOrredExpr (S fuel) ref = Ok r rest ->
  (exists l rr mid,
     matchAndAddPossiblyAndedExpr fuel ref = Ok (Some l) (String "|" mid) /\
     matchAndAddPossiblyAndedExpr fuel mid = Ok (Some rr) rest /\
     r = Some (Node OR [l; rr] 0 0)) \/
  matchAndAddPossiblyAndedExpr fuel ref = Ok r rest.
Proof.
  intros H. rewrite orred_unfold in H. unfold_monad_in H.
  break_match_eqs; inv_oks;
    match goal with
    | E : matchChar _ _ = Ok _ _ |- _ =>
        apply matchChar_Ok in E as [[? ?]|[? ?]]; try discriminate; subst
    end; eauto 7.
Qed.

(** A sequence on the left of a ['|'] is parsed as it is alone. *)
Lemma sequence_before_bar A tA x fuel :
  parseAnded A = Ok (Some tA) "" ->
  dangling A = false ->
  (fuel_for A <= fuel)%nat ->
  matchAndAddPossiblyAndedExpr fuel (A ++ "|" ++ x) =
  Ok (Some tA) ("|" ++ x).
Proof.
  intros HA D F.
  destruct (fuel_for_stable A fuel F) as (_ & _ & EA & _).
  rewrite HA in EA.
  destruct (rules_frame fuel) as (_ & _ & Fa & _).
  now apply (Fa _ _ _ ("|" ++ x)) in EA.
Qed.

(** X10. An alternation takes two operands: after ["A|B"] a second
    ['|'] is left in the view with all that follows it. *)
Theorem alternation_stops_at_second_bar A B C tA tB :
  parseAnded A = Ok (Some tA) "" -> dangling A = false ->
  parseAnded B = Ok (Some tB) "" -> dangling B = false ->
  parseOrred (A ++ "|" ++ B ++ "|" ++ C) =
  Ok (Some (Node OR [tA; tB] 0 0)) ("|" ++ C).
Proof.
  intros HA DA HB DB.
  set (fuel := fuel_for (A ++ "|" ++ B ++ "|" ++ C)).
  assert (FA : (fuel_for A <= fuel)%nat) by apply fuel_for_append_l.
  assert (FB : (fuel_for B <= fuel)%nat).
  { unfold fuel, fuel_for. rewrite !length_append. lia. }
  pose proof (sequence_before_bar A tA (B ++ "|" ++ C) fuel HA DA FA) as EA.
  pose proof (sequence_before_bar B tB C fuel HB DB FB) as EB.
  destruct (fuel_for_stable (A ++ "|" ++ B ++ "|" ++ C) (S fuel))
    as (_ & _ & _ & <-); [unfold fuel; lia|].
  now apply orred_both with (mid := B ++ "|" ++ C).
Qed.

(** X11. A ['|'] with nothing on its left, followed by a sequence
    that parses, makes the alternation rule read its left operand from
    an optional without a value. *)
Theorem alternation_needs_left_operand B tB rest :
  parseAnded B = Ok (Some tB) rest ->
  parseOrred ("|" ++ B) = Undefined EmptyOptional.
Proof.
  intros HB.
  set (fuel := S (S (S (fuel_for ("|" ++ B))))).
  assert (FB : (fuel_for B <= fuel)%nat).
  { unfold fuel, fuel_for. cbn [append String.length]. lia. }
  destruct (fuel_for_stable B fuel FB) as (_ & _ & EB & _).
  rewrite HB in EB.
  destruct (fuel_for_stable ("|" ++ B) (S fuel)) as (_ & _ & _ & <-);
    [unfold fuel; lia|].
  apply orred_left_missing with (mid := B) (r := tB) (rest := rest);
    [|exact EB].
  destruct (sequence_starts_reserved (fuel_for ("|" ++ B)) (String "|" B)
              eq_refl) as [E _].
  exact E.
Qed.

(** ** Sequences of plain characters *)

Lemma plain_atom c rest fuel :
  plain c = true ->
  matchAtom (S fuel) (String c rest) = Ok (Some (literal c)) rest.
Proof.
  destruct c as [b0 b1 b2 b3 b4 b5 b6 b7].
  destruct b0, b1, b2, b3, b4, b5, b6, b7; intros H;
    first [discriminate H | reflexivity].
Qed.

Lemma plain_not_postfix c : plain c = true -> find_first_of "+?*" c = None.
Proof.
  destruct c as [b0 b1 b2 b3 b4 b5 b6 b7].
  destruct b0, b1, b2, b3, b4, b5, b6, b7; intros H;
    first [discriminate H | reflexivity].
Qed.

Lemma plain_chain cs : forall c fuel,
  forallb plain (c :: cs) = true ->
  (4 * List.length (c :: cs) + 3 <= fuel)%nat ->
  matchAndAddPossiblyAndedExpr fuel (string_of_list_ascii (c :: cs)) =
  Ok (Some (chain c cs)) "".
Proof.
  induction cs as [|c' cs IH]; intros c fuel P F.
  - cbn in P. rewrite andb_true_r in P.
    destruct fuel as [|[|[|[|fuel]]]]; try (cbn in F; lia).
    rewrite anded_unfold. unfold bind.
    rewrite (postfix_absent _ _ (literal c) "");
      [reflexivity | now apply plain_atom | discriminate].
  - cbn [forallb] in P. apply andb_true_iff in P as [Pc P].
    destruct fuel as [|[|[|fuel]]]; try (cbn in F; lia).
    rewrite anded_unfold. unfold bind.
    cbn [string_of_list_ascii].
    rewrite (postfix_absent _ _ (literal c)
               (String c' (string_of_list_ascii cs))).
    + assert (E : matchAndAddPossiblyAndedExpr (S (S fuel))
                    (string_of_list_ascii (c' :: cs)) =
                  Ok (Some (chain c' cs)) "").
      { apply IH; [exact P|]. cbn [List.length] in *. lia. }
      cbn [string_of_list_ascii] in E. now rewrite E.
    + now apply plain_atom.
    + intros x r E. inv E. apply plain_not_postfix.
      cbn [forallb] in P. now apply andb_true_iff in P as [P _].
Qed.

Lemma length_string_of_list cs :
  String.length (string_of_list_ascii cs) = List.length cs.
Proof. induction cs; cbn; auto. Qed.

(** ** The printed tree *)






(** ** The node of a character *)

Lemma char_to_int_range d : CHAR_MIN <= char_to_int d <= CHAR_MAX.
Proof.
  unfold char_to_int, CHAR_MIN, CHAR_MAX. cbv zeta.
  pose proof (N_ascii_bounded d).
  destruct (Z.ltb_spec (Z.of_N (N_of_ascii d)) 128); lia.
Qed.

Lemma int_to_char_id v : CHAR_MIN <= v <= CHAR_MAX -> int_to_char v = v.
Proof.
  unfold int_to_char, CHAR_MIN, CHAR_MAX. intros H.
  rewrite Z.mod_small; lia.
Qed.

Lemma literal_begChar d : begChar (literal d) = char_to_int d.
Proof. cbn. apply int_to_char_id, char_to_int_range. Qed.

Lemma literal_endChar d :
  endChar (literal d) =
  if char_to_int d =? CHAR_MAX then CHAR_MIN else char_to_int d + 1.
Proof.
  cbn. pose proof (char_to_int_range d) as R.
  destruct (Z.eqb_spec (char_to_int d) CHAR_MAX) as [->|N]; [reflexivity|].
  apply int_to_char_id. unfold CHAR_MIN, CHAR_MAX in *. lia.
Qed.

Lemma literal_range d c :
  in_range (literal d) c = true <->
  c = char_to_int d /\ char_to_int d <> CHAR_MAX.
Proof.
  unfold in_range. rewrite literal_begChar, literal_endChar.
  rewrite andb_true_iff, Z.leb_le, Z.ltb_lt.
  pose proof (char_to_int_range d) as R.
  destruct (Z.eqb_spec (char_to_int d) CHAR_MAX);
    unfold CHAR_MIN, CHAR_MAX in *; lia.
Qed.

Lemma literal_node ref n rest :
  matchPossiblyEscapedChar ref = Ok (Some n) rest ->
  exists d, char_true d = true /\ n = literal d.
Proof.
  unfold matchPossiblyEscapedChar. intros H. unfold_monad_in H.
  break_match_eqs; inv_oks; eauto.
Qed.

Lemma lacks_postfix_set s : lacks "?*|" s = true -> lacks "?*" s = true.
Proof.
  induction s as [|c s IH]; [reflexivity|]. cbn [lacks find_first_of].
  intros H. break_match_eqs; try discriminate; auto.
Qed.

Lemma lacks_bar s : lacks "?*|" s = true -> lacks "|" s = true.
Proof.
  induction s as [|c s IH]; [reflexivity|]. cbn [lacks find_first_of].
  intros H. break_match_eqs; try discriminate; auto.
Qed.

Lemma char_true_nonzero d : char_true d = true -> char_to_int d <> 0.
Proof.
  unfold char_true, char_to_int. cbv zeta. intros H E.
  apply negb_true_iff, Ascii.eqb_neq in H. apply H.
  rewrite <- (ascii_N_embedding d). pose proof (N_ascii_bounded d).
  destruct (Z.ltb_spec (Z.of_N (N_of_ascii d)) 128); [|lia].
  assert (N_of_ascii d = 0%N) as -> by lia. reflexivity.
Qed.

(** ** The properties *)

(** X1. The recursion of the four rules is bounded by the input: with
    four units of fuel for each character of the view and four more,
    no rule runs out of fuel, and more fuel gives the same outcome. *)
Theorem rules_terminate k ref fuel :
  (fuel_for ref <= fuel)%nat ->
  run k fuel ref = run k (fuel_for ref) ref /\
  run k fuel ref <> OutOfFuel.
Proof.
  intros F.
  destruct (fuel_for_stable ref fuel F) as (Es & Ep & Ea & Eo).
  destruct (fuel_for_enough ref) as (Ns & Np & Na & No).
  unfold parseSubExpr, parsePostfix, parseAnded, parseOrred in *.
  destruct k; cbn [run]; split; congruence.
Qed.

Lemma rules_terminate_witness :
  run Alternation 100 "c|d(f+|g)" =
    run Alternation (fuel_for "c|d(f+|g)") "c|d(f+|g)" /\
  run Alternation 100 "c|d(f+|g)" <> OutOfFuel.
Proof.
  apply (rules_terminate Alternation "c|d(f+|g)" 100).
  apply Nat.leb_le. reflexivity.
Defined.

(** X2. What a rule leaves is the end of what it was given: the input
    is the consumed characters followed by the remaining view, and a
    rule that returns a node has consumed at least one character. *)
Theorem rules_consume_a_prefix k fuel ref r rest :
  run k fuel ref = Ok r rest ->
  exists pre, ref = pre ++ rest /\ (r <> None -> pre <> "").
Proof.
  intros H. destruct (rules_leave_suffix _ _ _ _ _ H) as [pre ->].
  exists pre. split; [reflexivity|]. intros Hr ->.
  destruct r as [n|]; [|congruence].
  destruct (rules_tree_size _ _ _ _ _ H) as [_ B].
  specialize (B n eq_refl). cbn [append] in B. lia.
Qed.

Lemma rules_consume_a_prefix_witness :
  exists pre,
    "ab)" = pre ++ ")" /\ (Some (chain "a" ["b"%char]) <> None -> pre <> "").
Proof.
  apply (rules_consume_a_prefix Sequence 20 "ab)" (Some (chain "a" ["b"%char]))
           ")").
  reflexivity.
Defined.

(** X3. The tree is linear in the input: a tree of [n] nodes is
    returned only after at least [(n + 1) / 2] characters. *)
Theorem tree_size_bounded k fuel ref n rest :
  run k fuel ref = Ok (Some n) rest ->
  (node_count n + 1 + 2 * String.length rest <= 2 * String.length ref)%nat.
Proof.
  intros H. destruct (rules_tree_size _ _ _ _ _ H) as [_ B]. now apply B.
Qed.

Lemma tree_size_bounded_witness :
  (node_count (chain "a" ["b"%char]) + 1 + 2 * String.length ")" <=
   2 * String.length "ab)")%nat.
Proof.
  apply (tree_size_bounded Sequence 20 "ab)" (chain "a" ["b"%char]) ")").
  reflexivity.
Defined.

Lemma trees_well_formed_witness :
  well_formed
    (Node OR
       [Node CHAR [] 99 100;
        Node AND
          [Node CHAR [] 100 101;
           Node OR
             [Node NONZERO [Node CHAR [] 102 103] 0 0; Node CHAR [] 103 104]
             0 0]
          0 0]
       0 0) = true.
Proof.
  apply (trees_well_formed 100 Alternation "c|d(f+|g)" _ "").
  reflexivity.
Defined.

(** X5. The node of the character rule is a CHAR node without
    subnodes, whose first character is not ['\0'] and whose range holds
    that one character, or, when that character is the largest [char],
    none. *)
Theorem literal_node_range ref n rest :
  matchPossiblyEscapedChar ref = Ok (Some n) rest ->
  type n = CHAR /\ subNodes n = [] /\ begChar n <> 0 /\
  forall c, in_range n c = true <-> c = begChar n /\ begChar n <> CHAR_MAX.
Proof.
  intros H. apply literal_node in H as (d & Hd & ->).
  rewrite literal_begChar.
  split; [reflexivity|]. split; [reflexivity|].
  split; [now apply char_true_nonzero|].
  intros c. apply literal_range.
Qed.

Lemma literal_node_range_witness :
  type (Node CHAR [] 10 11) = CHAR /\ subNodes (Node CHAR [] 10 11) = [] /\
  begChar (Node CHAR [] 10 11) <> 0 /\
  forall c, in_range (Node CHAR [] 10 11) c = true <->
            c = begChar (Node CHAR [] 10 11) /\
            begChar (Node CHAR [] 10 11) <> CHAR_MAX.
Proof.
  apply (literal_node_range "\n" (Node CHAR [] 10 11) ""). reflexivity.
Defined.

Lemma failure_in_place_witness :
  "(a|b" = "(a|b" \/ ("(a|b" = "\" /\ "(a|b" = "").
Proof.
  apply (failure_in_place 100 Alternation "(a|b" "(a|b"); reflexivity.
Defined.

(** X7. No atom starts on the empty view or on one of [| * + ? )]: the
    postfix and sequence rules return no node there and consume
    nothing. *)
Theorem no_atom_on_reserved fuel ref :
  starts_reserved ref = true ->
  run Sequence (S (S (S fuel))) ref = Ok None ref /\
  run Postfix (S (S fuel)) ref = Ok None ref.
Proof. apply sequence_starts_reserved. Qed.

Lemma no_atom_on_reserved_witness :
  run Sequence 3 "*a" = Ok None "*a" /\ run Postfix 2 "*a" = Ok None "*a".
Proof. apply (no_atom_on_reserved 0 "*a"). reflexivity. Defined.

(** X13. A view without ['?'] and ['*'] is never indexed past its
    end. *)
Theorem out_of_range_needs_query_or_star k fuel ref :
  lacks "?*" ref = true -> run k fuel ref <> Undefined OutOfRange.
Proof. intros L H. exact (rules_in_range fuel k ref L H). Qed.

Lemma out_of_range_needs_query_or_star_witness :
  lacks "?*" "(a+|b)+|" = true /\
  run Alternation 100 "(a+|b)+|" <> Undefined OutOfRange.
Proof.
  split; [reflexivity|].
  apply (out_of_range_needs_query_or_star Alternation 100 "(a+|b)+|").
  reflexivity.
Defined.

(** X14. A view without ['|'] never has the left operand of an
    alternation read from an optional without a value. *)
Theorem empty_optional_needs_bar k fuel ref :
  lacks "|" ref = true -> run k fuel ref <> Undefined EmptyOptional.
Proof. intros L H. exact (rules_have_operand fuel k ref L H). Qed.

Lemma empty_optional_needs_bar_witness :
  lacks "|" "(a?b)*c." = true /\
  run Alternation 100 "(a?b)*c." <> Undefined EmptyOptional.
Proof.
  split; [reflexivity|].
  apply (empty_optional_needs_bar Alternation 100 "(a?b)*c.").
  reflexivity.
Defined.

(** X20. On a view without ['?'], ['*'] and ['|'] the parse stays
    within defined behaviour: the alternation rule returns, with a node
    or without one. *)
Theorem parse_defined_without_query_star_bar ref :
  lacks "?*|" ref = true -> exists r rest, parseOrred ref = Ok r rest.
Proof.
  intros L.
  destruct (parseOrred ref) as [r rest|flt|] eqn:E; [eauto| |].
  - exfalso. destruct flt.
    + exact (rules_in_range _ Alternation ref (lacks_postfix_set _ L) E).
    + exact (rules_have_operand _ Alternation ref (lacks_bar _ L) E).
  - exfalso. now apply (fuel_for_enough ref).
Qed.

Lemma parse_defined_without_query_star_bar_witness :
  exists r rest, parseOrred "(a+b)+)c" = Ok r rest.
Proof.
  apply (parse_defined_without_query_star_bar "(a+b)+)c"). reflexivity.
Defined.

(** X15. A view made of plain characters is parsed wholly, into the
    nodes of its characters nested to the right under AND nodes. *)
Theorem plain_sequence_nests_right c cs :
  forallb plain (c :: cs) = true ->
  parseOrred (string_of_list_ascii (c :: cs)) = Ok (Some (chain c cs)) "".
Proof.
  intros P.
  set (ref := string_of_list_ascii (c :: cs)).
  assert (E : matchAndAddPossiblyAndedExpr (fuel_for ref) ref =
              Ok (Some (chain c cs)) "").
  { apply plain_chain; [exact P|].
    unfold fuel_for, ref.
    cbn [string_of_list_ascii String.length List.length].
    rewrite length_string_of_list. unfold char. lia. }
  destruct (fuel_for_stable ref (S (fuel_for ref))) as (_ & _ & _ & <-);
    [lia|].
  rewrite orred_unfold. unfold bind. now rewrite E.
Qed.

Lemma plain_sequence_nests_right_witness :
  parseOrred "abc" =
  Ok (Some (Node AND
              [Node CHAR [] 97 98;
               Node AND [Node CHAR [] 98 99; Node CHAR [] 99 100] 0 0]
              0 0)) "".
Proof.
  apply (plain_sequence_nests_right "a" ["b"; "c"]%char). reflexivity.
Defined.



(** X18. [maybeEscape] returns ['\0'] only for ['\0'], never returns
    one of the letters [b n f r t], and changes nothing when applied a
    second time. *)
Theorem maybeEscape_image c :
  (maybeEscape c = NUL <-> c = NUL) /\
  find_first_of "bnfrt" (maybeEscape c) = None /\
  maybeEscape (maybeEscape c) = maybeEscape c.
Proof.
  destruct c as [b0 b1 b2 b3 b4 b5 b6 b7].
  destruct b0, b1, b2, b3, b4, b5, b6, b7;
    (split; [split; intros H; first [reflexivity | discriminate H]
            | split; reflexivity]).
Qed.

Lemma alternation_stops_at_second_bar_witness :
  parseOrred "ab|c|d" =
  Ok (Some (Node OR
              [Node AND [Node CHAR [] 97 98; Node CHAR [] 98 99] 0 0;
               Node CHAR [] 99 100]
              0 0)) "|d".
Proof.
  apply (alternation_stops_at_second_bar "ab" "c" "d"); reflexivity.
Defined.

Lemma alternation_needs_left_operand_witness :
  parseOrred "|a)" = Undefined EmptyOptional.
Proof.
  apply (alternation_needs_left_operand "a)" (Node CHAR [] 97 98) ")").
  reflexivity.
Defined.

(** Witnesses of [grouping_transparent], [alternation_of_sequences]
    and [postfix_of_atom]. *)
Lemma grouping_transparent_witness :
  parseOrred "(a+|b)" =
  Ok (Some (Node OR
              [Node NONZERO [Node CHAR [] 97 98] 0 0; Node CHAR [] 98 99]
              0 0)) "".
Proof. apply (grouping_transparent "a+|b"); reflexivity. Defined.

Lemma alternation_of_sequences_witness :
  parseOrred "a.|(b)c)" =
  Ok (Some (Node OR
              [Node AND [Node CHAR [] 97 98; Node CHAR [] 0 127] 0 0;
               Node AND [Node CHAR [] 98 99; Node CHAR [] 99 100] 0 0]
              0 0)) ")".
Proof. apply (alternation_of_sequences "a." "(b)c)"); reflexivity. Defined.

Lemma postfix_of_atom_witness :
  matchAndAddExprWithPossiblePostfix 21 "(ab)" =
    Ok (Some (Node AND [Node CHAR [] 97 98; Node CHAR [] 98 99] 0 0)) "" /\
  matchAndAddExprWithPossiblePostfix 21 "(ab)+" =
    Ok (Some (Node NONZERO
                [Node AND [Node CHAR [] 97 98; Node CHAR [] 98 99] 0 0]
                0 0)) "" /\
  matchAndAddExprWithPossiblePostfix 21 "(ab)?" = Undefined OutOfRange /\
  matchAndAddExprWithPossiblePostfix 21 "(ab)*" = Undefined OutOfRange.
Proof. apply (postfix_of_atom 20 "(ab)"); reflexivity. Defined.
